(** * JSON Schema reference resolution: [ref_resolver.py]

    A shallow embedding of [precisionlife_fastjsonschema/ref_resolver.py]
    and the properties of its URI joining, JSON-pointer dereferencing,
    scope handling, store population and unique-name allocation.

    Python values are embedded as the tagged union [value]; exceptions
    as the constructors of [exn]; a call that may raise returns a
    [result].  Methods of [RefResolver] are state transformers over the
    instance's fields and the heap of store objects, and keep the state
    they reached when they raise, as Python does. *)

From Stdlib Require Import ZArith Ascii.
From stdpp Require Import gmap strings list pretty sorting.

#[local] Set Warnings "-register-all".

Local Open Scope Z_scope.

(** ** Python [str] methods used by the resolver

    A Python [str] is embedded as a Rocq [string]; one [ascii] stands
    for one character, so the text covered has its code points below
    256.  The functions below are the built-in methods the resolver
    calls, with Python's results on such strings. *)
Module PyStr.

Definition ascii_in (lo hi : ascii) (c : ascii) : bool :=
  (N_of_ascii lo <=? N_of_ascii c)%N && (N_of_ascii c <=? N_of_ascii hi)%N.

Definition is_digit (c : ascii) : bool := ascii_in "0" "9" c.
Definition is_upper (c : ascii) : bool := ascii_in "A" "Z" c.
Definition is_lower (c : ascii) : bool := ascii_in "a" "z" c.
Definition is_alpha (c : ascii) : bool := is_upper c || is_lower c.
Definition is_alnum (c : ascii) : bool := is_alpha c || is_digit c.

(** [c in chars] for a one-character [c]. *)
Fixpoint mem (c : ascii) (chars : string) : bool :=
  match chars with
  | EmptyString => false
  | String a rest => if Ascii.eqb a c then true else mem c rest
  end.

(** [s.startswith(p)]. *)
Fixpoint startswith (p s : string) : bool :=
  match p, s with
  | EmptyString, _ => true
  | String _ _, EmptyString => false
  | String a p', String b s' => if Ascii.eqb a b then startswith p' s' else false
  end.

(** [needle in s]. *)
Fixpoint contains (needle s : string) : bool :=
  startswith needle s ||
  match s with
  | EmptyString => false
  | String _ t => contains needle t
  end.

(** [s.replace(old, new)]: the non-overlapping occurrences of [old],
    found left to right, are replaced; [skip] counts the characters of
    a matched occurrence still to be passed over. *)
Fixpoint replace_go (old new : string) (skip : nat) (s : string) : string :=
  match s with
  | EmptyString => EmptyString
  | String c t =>
      match skip with
      | S k => replace_go old new k t
      | O =>
          if startswith old s
          then new +:+ replace_go old new (String.length old - 1) t
          else String c (replace_go old new 0 t)
      end
  end.

Fixpoint intersperse (new s : string) : string :=
  match s with
  | EmptyString => EmptyString
  | String c t => String c (new +:+ intersperse new t)
  end.

Definition replace (old new s : string) : string :=
  match old with
  | EmptyString => new +:+ intersperse new s
  | String _ _ => replace_go old new 0 s
  end.

(** [s.split(sep)] for a one-character separator. *)
Fixpoint split (sep : ascii) (s : string) : list string :=
  match s with
  | EmptyString => [EmptyString]
  | String c t =>
      if Ascii.eqb c sep then EmptyString :: split sep t
      else match split sep t with
           | h :: r => String c h :: r
           | [] => [String c EmptyString]
           end
  end.

(** [sep.join(parts)]. *)
Fixpoint join (sep : string) (parts : list string) : string :=
  match parts with
  | [] => EmptyString
  | [p] => p
  | p :: rest => p +:+ sep +:+ join sep rest
  end.

(** [s.partition(sep)] for a one-character separator: [None] when
    [sep] does not occur, else the text before and after its first
    occurrence. *)
Fixpoint partition (sep : ascii) (s : string) : option (string * string) :=
  match s with
  | EmptyString => None
  | String c t =>
      if Ascii.eqb c sep then Some (EmptyString, t)
      else match partition sep t with
           | Some (a, b) => Some (String c a, b)
           | None => None
           end
  end.

(** [s.lstrip(chars)] and [s.rstrip(chars)]. *)
Fixpoint lstrip (chars s : string) : string :=
  match s with
  | EmptyString => EmptyString
  | String c t => if mem c chars then lstrip chars t else s
  end.

Fixpoint rstrip (chars s : string) : string :=
  match s with
  | EmptyString => EmptyString
  | String c t =>
      match rstrip chars t with
      | EmptyString => if mem c chars then EmptyString else String c EmptyString
      | t' => String c t'
      end
  end.

Definition lower_char (c : ascii) : ascii :=
  if is_upper c then ascii_of_N (N_of_ascii c + 32) else c.

(** [s.lower()], on the letters A to Z: the resolver and [urlsplit]
    call it on text made of ASCII letters, digits and punctuation. *)
Fixpoint lower (s : string) : string :=
  match s with
  | EmptyString => EmptyString
  | String c t => String (lower_char c) (lower t)
  end.

(** [s[n:]] for [n >= 0]. *)
Fixpoint drop (n : nat) (s : string) : string :=
  match n, s with
  | S k, String _ t => drop k t
  | _, _ => s
  end.

Fixpoint all_chars (p : ascii -> bool) (s : string) : bool :=
  match s with
  | EmptyString => true
  | String c t => p c && all_chars p t
  end.

(** *** [int(s)]

    Base-10 parsing as [int] does it on ASCII text: blanks around the
    literal are dropped, one sign is allowed, and single underscores
    may separate digits. *)
Definition whitespace : string :=
  String " " (String "009" (String "010" (String "011" (String "012"
    (String "013" EmptyString))))).

Definition digit_val (c : ascii) : Z := Z.of_N (N_of_ascii c) - 48.

(** Digits of a literal, most significant first; [prev_digit] tells
    whether the previous character was a digit, which an underscore
    and the end of the literal require. *)
Fixpoint int_digits (acc : Z) (prev_digit : bool) (s : string) : option Z :=
  match s with
  | EmptyString => if prev_digit then Some acc else None
  | String c t =>
      if is_digit c then int_digits (10 * acc + digit_val c) true t
      else if Ascii.eqb c "_" then
        if prev_digit then int_digits acc false t else None
      else None
  end.

Definition int (s : string) : option Z :=
  match rstrip whitespace (lstrip whitespace s) with
  | String "-" t => Z.opp <$> int_digits 0 false t
  | String "+" t => int_digits 0 false t
  | t => int_digits 0 false t
  end.

End PyStr.

(** ** Values, exceptions and results *)

(** A decoded JSON document.  [Float m e] is a number written with a
    fraction or an exponent, [m] times ten to the [e]; [Dict] keeps the
    insertion order of a Python [dict], which [items()] follows. *)
Inductive value : Type :=
  | Null
  | Bool (b : bool)
  | Int (z : Z)
  | Float (m e : Z)
  | Str (s : string)
  | List (l : list value)
  | Dict (d : list (string * value)).

(** The exception classes that can leave the resolver.  Subclasses of
    [ValueError] (a failed decode) are [ValueError]; [OtherError] names
    any class the resolver itself never inspects: those raised by fetch
    handlers, by the network and by the block enclosed in a [with]. *)
Inductive exn : Type :=
  | JsonSchemaDefinitionException (msg : string)
  | ValueError (msg : string)
  | TypeError
  | AttributeError
  | IndexError
  | KeyError
  | OtherError (name : string).

Inductive result (A : Type) : Type :=
  | Ok (a : A)
  | Raise (e : exn).
Arguments Ok {A} a.
Arguments Raise {A} e.

Definition rbind {A B} (r : result A) (k : A -> result B) : result B :=
  match r with
  | Ok a => k a
  | Raise e => Raise e
  end.

Notation "'let*' x ':=' r 'in' k" := (rbind r (fun x => k))
  (at level 10, x pattern, r at level 100, k at level 200).

Section value_induction.
Variable P : value -> Prop.
Hypothesis HNull : P Null.
Hypothesis HBool : forall b, P (Bool b).
Hypothesis HInt : forall z, P (Int z).
Hypothesis HFloat : forall m e, P (Float m e).
Hypothesis HStr : forall s, P (Str s).
Hypothesis HList : forall l, Forall P l -> P (List l).
Hypothesis HDict : forall d, Forall (fun kv => P kv.2) d -> P (Dict d).

Fixpoint value_nested_ind (v : value) : P v :=
  match v with
  | Null => HNull
  | Bool b => HBool b
  | Int z => HInt z
  | Float m e => HFloat m e
  | Str s => HStr s
  | List l =>
      HList l ((fix go (l : list value) : Forall P l :=
                  match l with
                  | [] => Forall_nil_2 P
                  | x :: r => Forall_cons_2 P x r (value_nested_ind x) (go r)
                  end) l)
  | Dict d =>
      HDict d ((fix go (d : list (string * value)) : Forall (fun kv => P kv.2) d :=
                  match d with
                  | [] => Forall_nil_2 _
                  | kv :: r => Forall_cons_2 _ kv r (value_nested_ind kv.2) (go r)
                  end) d)
  end.
End value_induction.

(** *** [dict] operations *)

(** [d.get(k)]: the value under key [k]. *)
Fixpoint dict_get (k : string) (d : list (string * value)) : option value :=
  match d with
  | [] => None
  | (k', v) :: rest => if String.eqb k' k then Some v else dict_get k rest
  end.

(** [k in d]. *)
Definition dict_has (k : string) (d : list (string * value)) : bool :=
  match dict_get k d with Some _ => true | None => false end.

(** [d[k] = v]: an existing key keeps its place, a new one goes last. *)
Fixpoint dict_set (k : string) (v : value) (d : list (string * value))
  : list (string * value) :=
  match d with
  | [] => [(k, v)]
  | (k', v') :: rest =>
      if String.eqb k' k then (k', v) :: rest else (k', v') :: dict_set k v rest
  end.

(** [l[i]] with Python's negative indices. *)
Definition list_getitem (l : list value) (i : Z) : result value :=
  let n := Z.of_nat (length l) in
  let j := if i <? 0 then i + n else i in
  if (0 <=? j) && (j <? n) then
    match l !! Z.to_nat j with
    | Some v => Ok v
    | None => Raise IndexError
    end
  else Raise IndexError.

(** [s in l] for a text [s]. *)
Definition list_has_str (s : string) (l : list value) : bool :=
  existsb (fun v => match v with Str t => String.eqb t s | _ => false end) l.

(** [bool(v)]. *)
Definition truthy (v : value) : bool :=
  match v with
  | Null => false
  | Bool b => b
  | Int z => negb (z =? 0)
  | Float m _ => negb (m =? 0)
  | Str s => negb (String.eqb s "")
  | List l => match l with [] => false | _ => true end
  | Dict d => match d with [] => false | _ => true end
  end.

(** ** The [urllib.parse] interface

    The resolver imports [urlsplit], [urlunsplit], [urljoin],
    [urldefrag] and [unquote] from the standard library.  They are the
    methods of the class [urlparse.Lib]; every property of the resolver
    below is proved for any implementation of it.  [urlsplit] raises
    [ValueError] on a malformed authority, and so do the functions
    built on it. *)
Module urlparse.

Record SplitResult : Type := mkSplit {
  scheme : string;
  netloc : string;
  path : string;
  query : string;
  fragment : string
}.

Class Lib : Type := {
  urlsplit : string -> result SplitResult;
  urlunsplit : SplitResult -> string;
  urljoin : string -> string -> result string;
  urldefrag : string -> result (string * string);
  unquote : string -> string
}.

(** [(scheme, *parts[1:])]: the tuple of [parts] under another scheme. *)
Definition with_scheme (sch : string) (parts : SplitResult) : SplitResult :=
  mkSplit sch (netloc parts) (path parts) (query parts) (fragment parts).

End urlparse.

(** ** Module-level functions *)
Section functions.
Context `{urlparse.Lib}.

(** [get_id]: [schema.get('$id', schema.get('id', ''))]. *)
Definition get_id (schema : list (string * value)) : value :=
  match dict_get "$id" schema with
  | Some v => v
  | None =>
      match dict_get "id" schema with
      | Some v => v
      | None => Str ""
      end
  end.

(** [fixed_urljoin] on two strings. *)
Definition fixed_urljoin_str (url0 url1 : string) : result string :=
  let* parts0 := urlparse.urlsplit url0 in
  if bool_decide (urlparse.scheme parts0 ∈ ["http"; "https"])
  then urlparse.urljoin url0 url1
  else
    let* parts1 := urlparse.urlsplit url1 in
    if negb (String.eqb (urlparse.scheme parts1) "") then Ok url1
    else
      let url0_http := urlparse.urlunsplit (urlparse.with_scheme "http" parts0) in
      let* joined_url := urlparse.urljoin url0_http url1 in
      let* joined_parts := urlparse.urlsplit joined_url in
      Ok (urlparse.urlunsplit
            (urlparse.with_scheme (urlparse.scheme parts0) joined_parts)).

(** [fixed_urljoin(url0, url1)].  [url1] is always text; [url0] is
    the resolver's scope, which is whatever [$id] held when the
    resolver was built from a schema.  A [list] or [dict] cannot be
    hashed by [urlsplit]'s cache; any other value that is not text
    and is true has no [decode]; one that is false is parsed as the
    empty URL with byte components, which [urlunsplit] then fails to
    concatenate unless [url1] was returned first for carrying a
    scheme. *)
Definition fixed_urljoin (url0 : value) (url1 : string) : result string :=
  match url0 with
  | Str u0 => fixed_urljoin_str u0 url1
  | List _ | Dict _ => Raise TypeError
  | _ =>
      if truthy url0 then Raise AttributeError
      else
        let* parts1 := urlparse.urlsplit url1 in
        if negb (String.eqb (urlparse.scheme parts1) "") then Ok url1
        else Raise TypeError
  end.

(** [resolve_path]: the loop over [parts]. *)
Fixpoint resolve_parts (schema : value) (parts : list string) : result value :=
  match parts with
  | [] => Ok schema
  | part :: rest =>
      let part := PyStr.replace "~0" "~" (PyStr.replace "~1" "/" part) in
      match schema with
      | List l =>
          match PyStr.int part with
          | None =>
              Raise (ValueError ("invalid literal for int() with base 10: '" +:+ part +:+ "'"))
          | Some i =>
              let* item := list_getitem l i in
              resolve_parts item rest
          end
      | Dict d =>
          match dict_get part d with
          | Some item => resolve_parts item rest
          | None =>
              Raise (JsonSchemaDefinitionException ("Unresolvable ref: " +:+ part))
          end
      | Str s =>
          if PyStr.contains part s then Raise TypeError
          else Raise (JsonSchemaDefinitionException ("Unresolvable ref: " +:+ part))
      | _ => Raise TypeError
      end
  end.

Definition resolve_path (schema : value) (fragment : string) : result value :=
  let fragment := PyStr.lstrip "/" fragment in
  let parts :=
    if String.eqb fragment "" then []
    else PyStr.split "/" (urlparse.unquote fragment) in
  resolve_parts schema parts.

(** [normalize]: [urlsplit(uri).geturl()]. *)
Definition normalize (uri : string) : result string :=
  let* parts := urlparse.urlsplit uri in
  Ok (urlparse.urlunsplit parts).

End functions.

(** ** Remote documents

    [urlopen] is the default fetch: it answers with a response or
    raises.  The response carries the charset its headers declare and
    its body, already read.  [bytes_decode] and [json_loads] are
    [bytes.decode(encoding)] and [json.loads]; both raise [ValueError]
    (as [UnicodeDecodeError] and [JSONDecodeError]) on bad input. *)
Record response : Type := mkResponse {
  content_charset : option string;
  body : string
}.

Class Network : Type := {
  urlopen : string -> result response;
  bytes_decode : string -> string -> result string;
  json_loads : string -> result value
}.

(** A fetch handler, and the [handlers] mapping from scheme to handler:
    [None] where [handlers[scheme]] raises [KeyError] or holds [None]. *)
Definition handler : Type := string -> result value.
Definition handler_map : Type := string -> option handler.

Section remote.
Context `{urlparse.Lib} `{Network}.

Definition resolve_remote (uri : string) (handlers : handler_map) : result value :=
  let* parts := urlparse.urlsplit uri in
  match handlers (urlparse.scheme parts) with
  | Some handle => handle uri
  | None =>
      let* req := urlopen uri in
      let encoding :=
        match content_charset req with
        | Some cs => if String.eqb cs "" then "utf-8" else cs
        | None => "utf-8"
        end in
      match (let* text := bytes_decode (body req) encoding in json_loads text) with
      | Raise (ValueError exc) =>
          Raise (JsonSchemaDefinitionException (uri +:+ " failed to decode: " +:+ exc))
      | r => r
      end
  end.

End remote.

(** ** The resolver's state

    A store is a Python [dict] object: it lives in the [heap] and a
    resolver holds its address, so that two resolvers given the same
    object see each other's writes.  [default_store] is the address of
    the one [dict] that the default argument [store={}] of [__init__]
    was evaluated to when the class was defined. *)
Definition loc : Type := nat.
Abbreviation heap := (gmap loc (gmap string value)).

Definition default_store : loc := 0%nat.

Record RefResolver : Type := mkResolver {
  base_uri : value;
  resolution_scope : value;
  schema : value;
  store : loc;
  cache : bool;
  handlers : handler_map;
  unique_name_registry : gmap string string;
  unique_names_taken : gset string
}.

Definition set_resolution_scope (v : value) (r : RefResolver) : RefResolver :=
  mkResolver (base_uri r) v (schema r) (store r) (cache r) (handlers r)
             (unique_name_registry r) (unique_names_taken r).

Definition set_base_uri_schema (b s : value) (r : RefResolver) : RefResolver :=
  mkResolver b (resolution_scope r) s (store r) (cache r) (handlers r)
             (unique_name_registry r) (unique_names_taken r).

Definition set_unique_names (reg : gmap string string) (taken : gset string)
    (r : RefResolver) : RefResolver :=
  mkResolver (base_uri r) (resolution_scope r) (schema r) (store r) (cache r)
             (handlers r) reg taken.

(** The store object a resolver points to, and a write to it. *)
Definition store_of (r : RefResolver) (h : heap) : gmap string value :=
  h !!! store r.

Definition store_write (l : loc) (uri : string) (doc : value) (h : heap) : heap :=
  <[l := <[uri := doc]> (h !!! l)]> h.

(** A method: from the instance and the heap to an answer or an
    exception, with the instance and the heap as the method left them. *)
Definition M (A : Type) : Type :=
  RefResolver -> heap -> result A * RefResolver * heap.

Definition mlift {A} (r : result A) : M A := fun self h => (r, self, h).

Definition mseq {A B} (m : M A) (k : A -> M B) : M B :=
  fun self h =>
    match m self h with
    | (Ok a, self', h') => k a self' h'
    | (Raise e, self', h') => (Raise e, self', h')
    end.

Notation "'let!' x ':=' m 'in' k" := (mseq m (fun x => k))
  (at level 10, x pattern, m at level 100, k at level 200).

(** [try: m finally: fin], for a [fin] that only assigns fields. *)
Definition try_finally {A} (m : M A) (fin : RefResolver -> RefResolver) : M A :=
  fun self h =>
    match m self h with
    | (r, self', h') => (r, fin self', h')
    end.

(** What a walk over a schema leaves behind: the tree as the walk left
    it, the writes it made to the store, oldest first, and the
    exception that stopped it, if one did. *)
Record walked (A : Type) : Type := mkWalked {
  tree : A;
  writes : list (string * value);
  raised : option exn
}.
Arguments mkWalked {A}.
Arguments tree {A}.
Arguments writes {A}.
Arguments raised {A}.

(** ** [RefResolver] methods *)
Section methods.
Context `{urlparse.Lib} `{Network}.

(** [in_scope]: a context manager; [block] is the body of the [with]
    statement, run at the [yield]. *)
Definition in_scope {A} (scope : string) (block : M A) : M A :=
  fun self h =>
    let old_scope := resolution_scope self in
    match fixed_urljoin old_scope scope with
    | Raise e => (Raise e, self, h)
    | Ok new_scope =>
        try_finally block (set_resolution_scope old_scope)
                    (set_resolution_scope (Str new_scope) self) h
    end.

(** [uri == self.base_uri], for a [uri] that is text. *)
Definition eq_base_uri (uri : string) (b : value) : bool :=
  match b with
  | Str s => String.eqb uri s
  | _ => false
  end.

(** Lines 152 to 165 of [resolving]: the document the reference
    points into, with the URI it was found under and the fragment yet
    to be followed. *)
Definition resolving_document (ref : string) : M (string * string * value) :=
  fun self h =>
    match
      (let* new_uri := fixed_urljoin (resolution_scope self) ref in
       let* (uri, fragment) := urlparse.urldefrag new_uri in
       let* normalized_uri := normalize uri in
       Ok (uri, fragment, normalized_uri))
    with
    | Raise e => (Raise e, self, h)
    | Ok (uri, fragment, normalized_uri) =>
        match store_of self h !! normalized_uri with
        | Some doc => (Ok (uri, fragment, doc), self, h)
        | None =>
            if String.eqb uri "" || eq_base_uri uri (base_uri self)
            then (Ok (uri, fragment, schema self), self, h)
            else
              match resolve_remote uri (handlers self) with
              | Raise e => (Raise e, self, h)
              | Ok doc =>
                  if cache self then
                    match urlparse.urlsplit normalized_uri with
                    | Raise e => (Raise e, self, h)
                    | Ok parts =>
                        if negb (String.eqb (urlparse.scheme parts) "internal-no-cache")
                        then (Ok (uri, fragment, doc), self,
                              store_write (store self) normalized_uri doc h)
                        else (Ok (uri, fragment, doc), self, h)
                    end
                  else (Ok (uri, fragment, doc), self, h)
              end
        end
    end.

(** [resolving]: a context manager; [block] is the body of the [with]
    statement and receives the value yielded. *)
Definition resolving {A} (ref : string) (block : value -> M A) : M A :=
  let! (uri, fragment, doc) := resolving_document ref in
  fun self h =>
    let old_base_uri := base_uri self in
    let old_schema := schema self in
    try_finally
      (in_scope uri
         (let! target := mlift (resolve_path doc fragment) in
          block target))
      (set_base_uri_schema old_base_uri old_schema)
      (set_base_uri_schema (Str uri) doc self) h.

(** The substitution [re.sub(r'($[^a-zA-Z]|[^a-zA-Z0-9])', '_', name)].
    At each position the first alternative is tried first: [$] holds
    at the end of the text and before a final newline, and must be
    followed by a character that is no letter; then the second: a
    character that is neither letter nor digit.  A match is one
    character long and becomes ['_']. *)
Definition at_dollar (s : string) : bool :=
  String.eqb s "" || String.eqb s (String "010" "").

Fixpoint re_sub_name (s : string) : string :=
  match s with
  | EmptyString => EmptyString
  | String c t =>
      if (at_dollar s && negb (PyStr.is_alpha c)) || negb (PyStr.is_alnum c)
      then String "_" (re_sub_name t)
      else String c (re_sub_name t)
  end.

(** The text [get_scope_name] starts from, before it is made unique. *)
Definition scope_base_name (scope : string) : string :=
  let name := "validate_" +:+ urlparse.unquote scope in
  let name :=
    PyStr.replace (String "034" "") ""
      (PyStr.replace "~0" "_" (PyStr.replace "~1" "_" name)) in
  let name := re_sub_name name in
  PyStr.rstrip "_" (PyStr.lower name).

(** [f'{name}_{idx}']. *)
Definition suffixed (name : string) (idx : Z) : string :=
  name +:+ "_" +:+ pretty idx.

(** The [while] loop of [get_scope_name], run for at most [fuel]
    iterations. *)
Fixpoint unique_name_loop (fuel : nat) (taken : gset string) (name : string)
    (idx : Z) (unique_name : string) : string :=
  match fuel with
  | O => unique_name
  | S fuel' =>
      if bool_decide (unique_name ∈ taken)
      then unique_name_loop fuel' taken name (idx + 1) (suffixed name (idx + 1))
      else unique_name
  end.

(** [get_scope_name].  The loop leaves within [size taken] iterations
    (lemma [unique_name_loop_free]), so the fuel given never runs out.
    A scope that is not text raises: [list] and [dict] cannot be
    looked up in the registry, the other values are no key of it and
    fail in [unquote]. *)
Definition get_scope_name : M string :=
  fun self h =>
    match resolution_scope self with
    | Str scope =>
        let self' :=
          match unique_name_registry self !! scope with
          | Some _ => self
          | None =>
              let name := scope_base_name scope in
              let taken := unique_names_taken self in
              let unique_name :=
                unique_name_loop (S (size taken)) taken name (-1) name in
              set_unique_names (<[scope := unique_name]> (unique_name_registry self))
                               ({[unique_name]} ∪ taken) self
          end in
        match unique_name_registry self' !! scope with
        | Some name => (Ok name, self', h)
        | None => (Raise KeyError, self', h)
        end
    | _ => (Raise TypeError, self, h)
    end.

(** *** [walk]

    [walk] mutates the nodes it visits and writes references to them
    into the store.  On a schema that is a tree (no node reached twice,
    none referred to from the store yet) it is the function below: it
    answers with the tree as the walk left it, with the store writes
    in the order they were made, and with the exception that stopped
    it, if one did.  A store entry is a reference to a node, so what
    a later reader finds under it is the node as the walk left it:
    that is the value recorded in [writes] of the answer, a
    [walked]. *)

(** The condition of the third branch: [$id] or [id] is a key and
    [get_id] is text. *)
Definition declared_id (d : list (string * value)) : option string :=
  if dict_has "$id" d || dict_has "id" d then
    match get_id d with
    | Str i => Some i
    | _ => None
    end
  else None.

Fixpoint walk (scope : value) (node : value) {struct node} : walked value :=
  let walk_items :=
    fix walk_items (scope : value) (items : list (string * value)) {struct items}
      : walked (list (string * value)) :=
      match items with
      | [] => mkWalked [] [] None
      | (key, item) :: rest =>
          match item with
          | Dict _ =>
              let w := walk scope item in
              match raised w with
              | Some e => mkWalked ((key, tree w) :: rest) (writes w) (Some e)
              | None =>
                  let ws := walk_items scope rest in
                  mkWalked ((key, tree w) :: tree ws) (writes w ++ writes ws) (raised ws)
              end
          | _ =>
              let ws := walk_items scope rest in
              mkWalked ((key, item) :: tree ws) (writes ws) (raised ws)
          end
      end in
  match node with
  | Bool _ => mkWalked node [] None
  | Dict d =>
      match dict_get "$ref" d with
      | Some (Str ref) =>
          match fixed_urljoin scope ref with
          | Ok absolute => mkWalked (Dict (dict_set "$ref" (Str absolute) d)) [] None
          | Raise e => mkWalked node [] (Some e)
          end
      | _ =>
          match declared_id d with
          | Some i =>
              match (let* new_scope := fixed_urljoin scope i in
                     let* key := normalize new_scope in
                     Ok (new_scope, key)) with
              | Raise e => mkWalked node [] (Some e)
              | Ok (new_scope, key) =>
                  let ws := walk_items (Str new_scope) d in
                  mkWalked (Dict (tree ws)) ((key, Dict (tree ws)) :: writes ws) (raised ws)
              end
          | None =>
              let ws := walk_items scope d in
              mkWalked (Dict (tree ws)) (writes ws) (raised ws)
          end
      end
  | List l =>
      mkWalked node []
        (Some (if list_has_str "$ref" l then TypeError else AttributeError))
  | Str s =>
      mkWalked node []
        (Some (if PyStr.contains "$ref" s then TypeError else AttributeError))
  | Null | Int _ | Float _ _ => mkWalked node [] (Some TypeError)
  end.

(** The loop [for _, item in node.items()] of [walk], as [walk] runs
    it (lemma [walk_Dict]). *)
Fixpoint walk_items (scope : value) (items : list (string * value))
  : walked (list (string * value)) :=
  match items with
  | [] => mkWalked [] [] None
  | (key, item) :: rest =>
      match item with
      | Dict _ =>
          let w := walk scope item in
          match raised w with
          | Some e => mkWalked ((key, tree w) :: rest) (writes w) (Some e)
          | None =>
              let ws := walk_items scope rest in
              mkWalked ((key, tree w) :: tree ws) (writes w ++ writes ws) (raised ws)
          end
      | _ =>
          let ws := walk_items scope rest in
          mkWalked ((key, item) :: tree ws) (writes ws) (raised ws)
      end
  end.

(** The store after the writes of a walk, oldest first. *)
Definition apply_writes (ws : list (string * value)) (st : gmap string value)
  : gmap string value :=
  foldl (fun st w => <[w.1 := w.2]> st) st ws.

(** [RefResolver.__init__].  [store] is [None] when the caller leaves
    the argument out, and the default object is used.  The walk runs
    on the caller's schema object, which is also what [self.schema]
    refers to. *)
Definition __init__ (base_uri : value) (schema : value) (store : option loc)
    (cache : bool) (handlers : handler_map) (h : heap)
  : result RefResolver * heap :=
  let store := default default_store store in
  let w := walk base_uri schema in
  let h' := <[store := apply_writes (writes w) (h !!! store)]> h in
  match raised w with
  | Some e => (Raise e, h')
  | None =>
      (Ok (mkResolver base_uri base_uri (tree w) store cache handlers ∅ ∅), h')
  end.

(** [RefResolver.from_schema]; [store] and [cache] are the keyword
    arguments passed on. *)
Definition from_schema (schema : value) (handlers : handler_map)
    (store : option loc) (cache : bool) (h : heap)
  : result RefResolver * heap :=
  __init__ (match schema with Dict d => get_id d | _ => Str "" end)
           schema store cache handlers h.

End methods.

(** ** An implementation of the interface: CPython's [urllib.parse]

    The functions of CPython 3.11's [urllib/parse.py] on text whose
    characters are below 128 and whose authority has no bracketed
    host: the validation of IPv6 literals and the NFKC check of
    non-ASCII authorities are left out, and [unquote] decodes the
    escapes [%00] to [%7F] only.  The examples and counterexamples
    below run the resolver on this instance. *)
Module PyUrllib.
Import urlparse.

Definition uses_relative : list string :=
  [""; "ftp"; "http"; "gopher"; "nntp"; "imap"; "wais"; "file"; "https";
   "shttp"; "mms"; "prospero"; "rtsp"; "rtspu"; "sftp"; "svn"; "svn+ssh";
   "ws"; "wss"].

Definition uses_netloc : list string :=
  [""; "ftp"; "http"; "gopher"; "nntp"; "telnet"; "imap"; "wais"; "file";
   "mms"; "https"; "shttp"; "snews"; "prospero"; "rtsp"; "rtspu"; "rsync";
   "svn"; "svn+ssh"; "sftp"; "nfs"; "git"; "git+ssh"; "ws"; "wss"].

Definition uses_params : list string :=
  [""; "ftp"; "hdl"; "prospero"; "http"; "imap"; "https"; "shttp"; "rtsp";
   "rtspu"; "sip"; "sips"; "mms"; "sftp"; "tel"].

Definition in_list (s : string) (l : list string) : bool :=
  existsb (String.eqb s) l.

Definition scheme_char (c : ascii) : bool :=
  PyStr.is_alnum c || PyStr.mem c "+-.".

(** Characters 0 to 32, stripped from the left of a URL. *)
Definition c0_control_or_space (c : ascii) : bool := (N_of_ascii c <=? 32)%N.

Fixpoint lstrip_c0 (s : string) : string :=
  match s with
  | String c t => if c0_control_or_space c then lstrip_c0 t else s
  | EmptyString => EmptyString
  end.

Definition remove_unsafe (s : string) : string :=
  PyStr.replace (String "010" "") ""
    (PyStr.replace (String "013" "") "" (PyStr.replace (String "009" "") "" s)).

(** [_splitnetloc(url, 2)] on the text after the two slashes. *)
Fixpoint splitnetloc (s : string) : string * string :=
  match s with
  | EmptyString => (EmptyString, EmptyString)
  | String c t =>
      if PyStr.mem c "/?#" then (EmptyString, s)
      else let '(a, b) := splitnetloc t in (String c a, b)
  end.

(** [url.split(c, 1)] when [c in url], and [(url, '')] otherwise. *)
Definition split_once (c : ascii) (s : string) : string * string :=
  match PyStr.partition c s with
  | Some ab => ab
  | None => (s, EmptyString)
  end.

Definition urlsplit (url : string) : result SplitResult :=
  let url := remove_unsafe (lstrip_c0 url) in
  let '(sch, url) :=
    match PyStr.partition ":" url with
    | Some (String c0 pre, rest) =>
        if PyStr.is_alpha c0 && PyStr.all_chars scheme_char (String c0 pre)
        then (PyStr.lower (String c0 pre), rest)
        else (EmptyString, url)
    | _ => (EmptyString, url)
    end in
  let split_rest (net url : string) :=
    let '(url, frag) := split_once "#" url in
    let '(url, qry) := split_once "?" url in
    Ok (mkSplit sch net url qry frag) in
  if PyStr.startswith "//" url then
    let '(net, rest) := splitnetloc (PyStr.drop 2 url) in
    if xorb (PyStr.mem "[" net) (PyStr.mem "]" net)
    then Raise (ValueError "Invalid IPv6 URL")
    else split_rest net rest
  else split_rest EmptyString url.

Definition urlunsplit (parts : SplitResult) : string :=
  let url := path parts in
  let url :=
    if negb (String.eqb (netloc parts) "") ||
       (negb (String.eqb (scheme parts) "") && in_list (scheme parts) uses_netloc
        && negb (PyStr.startswith "//" url))
    then
      let url :=
        if negb (String.eqb url "") && negb (PyStr.startswith "/" url)
        then "/" +:+ url else url in
      "//" +:+ netloc parts +:+ url
    else url in
  let url := if String.eqb (scheme parts) "" then url else scheme parts +:+ ":" +:+ url in
  let url := if String.eqb (query parts) "" then url else url +:+ "?" +:+ query parts in
  if String.eqb (fragment parts) "" then url else url +:+ "#" +:+ fragment parts.

(** [_splitparams]: the parameters follow the first [;] of the last
    path segment. *)
Fixpoint last_segment (s : string) : string * string :=
  match s with
  | EmptyString => (EmptyString, EmptyString)
  | String c t =>
      let '(dir, seg) := last_segment t in
      if PyStr.mem "/" t then (String c dir, seg)
      else if Ascii.eqb c "/" then (String c EmptyString, t)
      else (EmptyString, s)
  end.

Definition splitparams (url : string) : string * string :=
  let '(dir, seg) := last_segment url in
  match PyStr.partition ";" seg with
  | Some (a, b) => (dir +:+ a, b)
  | None => (url, EmptyString)
  end.

(** [urlparse]: the split result and the parameters. *)
Definition urlparse (url default_scheme : string) : result (SplitResult * string) :=
  let* parts := urlsplit url in
  let parts :=
    if String.eqb (scheme parts) "" then with_scheme default_scheme parts else parts in
  if in_list (scheme parts) uses_params && PyStr.mem ";" (path parts)
  then
    let '(p, params) := splitparams (path parts) in
    Ok (mkSplit (scheme parts) (netloc parts) p (query parts) (fragment parts), params)
  else Ok (parts, EmptyString).

Definition urlunparse (parts : SplitResult) (params : string) : string :=
  let url := if String.eqb params "" then path parts else path parts +:+ ";" +:+ params in
  urlunsplit (mkSplit (scheme parts) (netloc parts) url (query parts) (fragment parts)).

(** [segments[1:-1] = filter(None, segments[1:-1])]. *)
Fixpoint filter_inner (l : list string) : list string :=
  match l with
  | [] => []
  | [x] => [x]
  | x :: r => if String.eqb x "" then filter_inner r else x :: filter_inner r
  end.

Definition filter_middle (l : list string) : list string :=
  match l with
  | x :: r => x :: filter_inner r
  | [] => []
  end.

(** The loop over [segments], building [resolved_path]. *)
Fixpoint resolve_segments (resolved : list string) (segments : list string)
  : list string :=
  match segments with
  | [] => resolved
  | seg :: rest =>
      if String.eqb seg ".." then resolve_segments (removelast resolved) rest
      else if String.eqb seg "." then resolve_segments resolved rest
      else resolve_segments (resolved ++ [seg]) rest
  end.

Definition urljoin (base url : string) : result string :=
  if String.eqb base "" then Ok url
  else if String.eqb url "" then Ok base
  else
    let* (b, bparams) := urlparse base "" in
    let* (u, params) := urlparse url (scheme b) in
    if negb (String.eqb (scheme u) (scheme b)) || negb (in_list (scheme u) uses_relative)
    then Ok url
    else if in_list (scheme u) uses_netloc && negb (String.eqb (netloc u) "")
    then Ok (urlunparse u params)
    else
      let net := if in_list (scheme u) uses_netloc then netloc b else netloc u in
      if String.eqb (path u) "" && String.eqb params ""
      then
        let qry := if String.eqb (query u) "" then query b else query u in
        Ok (urlunparse (mkSplit (scheme u) net (path b) qry (fragment u)) bparams)
      else
        let base_parts := PyStr.split "/" (path b) in
        let base_parts :=
          if negb (String.eqb (List.last base_parts "") "")
          then removelast base_parts else base_parts in
        let segments :=
          if PyStr.startswith "/" (path u) then PyStr.split "/" (path u)
          else filter_middle (base_parts ++ PyStr.split "/" (path u)) in
        let resolved := resolve_segments [] segments in
        let resolved :=
          if in_list (List.last segments "") ["."; ".."]
          then resolved ++ [""] else resolved in
        let joined := PyStr.join "/" resolved in
        let joined := if String.eqb joined "" then "/" else joined in
        Ok (urlunparse (mkSplit (scheme u) net joined (query u) (fragment u)) params).

Definition urldefrag (url : string) : result (string * string) :=
  if PyStr.mem "#" url then
    let* (p, params) := urlparse url "" in
    Ok (urlunparse (mkSplit (scheme p) (netloc p) (path p) (query p) "") params,
        fragment p)
  else Ok (url, EmptyString).

Definition hex_val (c : ascii) : option N :=
  if PyStr.is_digit c then Some (N_of_ascii c - 48)%N
  else if PyStr.ascii_in "a" "f" c then Some (N_of_ascii c - 87)%N
  else if PyStr.ascii_in "A" "F" c then Some (N_of_ascii c - 55)%N
  else None.

Fixpoint unquote (s : string) : string :=
  match s with
  | EmptyString => EmptyString
  | String c t =>
      let keep := String c (unquote t) in
      if Ascii.eqb c "%" then
        match t with
        | String a (String b rest) =>
            match hex_val a, hex_val b with
            | Some x, Some y =>
                if (x <? 8)%N then String (ascii_of_N (16 * x + y)) (PyStr.drop 2 (unquote t))
                else keep
            | _, _ => keep
            end
        | _ => keep
        end
      else keep
  end.

End PyUrllib.

(** The instance, and a network on which nothing can be fetched. *)
Definition cpython : urlparse.Lib :=
  {| urlparse.urlsplit := PyUrllib.urlsplit;
     urlparse.urlunsplit := PyUrllib.urlunsplit;
     urlparse.urljoin := PyUrllib.urljoin;
     urlparse.urldefrag := PyUrllib.urldefrag;
     urlparse.unquote := PyUrllib.unquote |}.

Definition offline : Network :=
  {| urlopen := fun _ => Raise (OtherError "URLError");
     bytes_decode := fun b _ => Ok b;
     json_loads := fun _ => Raise (ValueError "Expecting value") |}.

(** ** Notions the properties are stated with *)

(** *** JSON pointers (RFC 6901) *)

(** Decoding of a reference token in one pass from the left: [~0] is
    [~] and [~1] is [/]. *)
Fixpoint rfc6901_unescape (s : string) : string :=
  match s with
  | EmptyString => EmptyString
  | String c t =>
      if Ascii.eqb c "~" then
        match t with
        | String d t' =>
            if Ascii.eqb d "0" then String "~" (rfc6901_unescape t')
            else if Ascii.eqb d "1" then String "/" (rfc6901_unescape t')
            else String c (rfc6901_unescape t)
        | EmptyString => String c EmptyString
        end
      else String c (rfc6901_unescape t)
  end.

(** The reference tokens of a fragment as [resolve_path] takes them:
    every leading slash dropped, the rest percent-decoded, split on
    [/], each token unescaped; none for a fragment that is empty once
    the slashes are dropped. *)
Definition pointer_tokens `{urlparse.Lib} (fragment : string) : list string :=
  let fragment := PyStr.lstrip "/" fragment in
  if String.eqb fragment "" then []
  else rfc6901_unescape <$> PyStr.split "/" (urlparse.unquote fragment).







(** *** Names of scopes *)

(** The names the [while] loop of [get_scope_name] goes through: the
    base name first, then the base name with [_0], [_1] and so on. *)
Definition candidate (name : string) (k : nat) : string :=
  match k with
  | O => name
  | S j => suffixed name (Z.of_nat j)
  end.

(** One character of a name: letters and digits stay, in lower case,
    and every other character is an underscore. *)
Definition name_char (c : ascii) : ascii :=
  if PyStr.is_alnum c then PyStr.lower_char c else "_"%char.

Fixpoint map_chars (f : ascii -> ascii) (s : string) : string :=
  match s with
  | EmptyString => EmptyString
  | String c t => String (f c) (map_chars f t)
  end.

(** The base name as C5 words it: every run of characters that are
    neither letter nor digit becomes a single underscore.  The prefix
    and the other steps are those of the code. *)
Fixpoint collapse_runs (in_run : bool) (s : string) : string :=
  match s with
  | EmptyString => EmptyString
  | String c t =>
      if PyStr.is_alnum c then String c (collapse_runs false t)
      else if in_run then collapse_runs true t
      else String "_" (collapse_runs true t)
  end.

Definition collapsed_base_name `{urlparse.Lib} (scope : string) : string :=
  PyStr.rstrip "_"
    (PyStr.lower (collapse_runs false ("validate_" +:+ urlparse.unquote scope))).

(** What the registry and the set of taken names satisfy throughout
    the life of a resolver: every registered name is taken, and no name
    is registered for two scopes. *)
Definition names_consistent (self : RefResolver) : Prop :=
  (forall scope name,
      unique_name_registry self !! scope = Some name -> name ∈ unique_names_taken self)
  /\ (forall scope1 scope2 name,
        unique_name_registry self !! scope1 = Some name ->
        unique_name_registry self !! scope2 = Some name ->
        scope1 = scope2).

(** A sequence of calls of [get_scope_name], the resolver being in the
    scope [scopes !! i] at the [i]-th call: the answers, and the
    resolver after the last call. *)
Fixpoint name_scopes `{urlparse.Lib} (scopes : list value) (self : RefResolver) (h : heap)
  : list (result string) * RefResolver :=
  match scopes with
  | [] => ([], self)
  | scope :: rest =>
      match get_scope_name (set_resolution_scope scope self) h with
      | (r, self', h') =>
          let '(rs, last) := name_scopes rest self' h' in (r :: rs, last)
      end
  end.

(** *** Places in a schema tree *)

(** A place in a tree is the list of the positions taken from the
    root: the [i]-th item of a map, the [i]-th element of a sequence. *)
Fixpoint subnode (v : value) (p : list nat) : option value :=
  match p with
  | [] => Some v
  | i :: rest =>
      match v with
      | Dict d =>
          match d !! i with
          | Some kv => subnode kv.2 rest
          | None => None
          end
      | List l =>
          match l !! i with
          | Some item => subnode item rest
          | None => None
          end
      | _ => None
      end
  end.

(** The [$ref] of a node, when it is text. *)
Definition str_ref (d : list (string * value)) : option string :=
  match dict_get "$ref" d with
  | Some (Str ref) => Some ref
  | _ => None
  end.

(** The order in which [walk] visits places: a node before the nodes
    below it, and the fields of a map in the order of its items. *)
Fixpoint visited_before (p q : list nat) : Prop :=
  match p, q with
  | [], _ :: _ => True
  | i :: p', j :: q' => (i < j)%nat \/ (i = j /\ visited_before p' q')
  | _, _ => False
  end.

(** A place among the items of a map, seen from the map with one more
    item in front. *)
Definition shift_place (q : list nat) : list nat :=
  match q with
  | i :: rest => S i :: rest
  | [] => []
  end.

Definition place_in_first (a : list nat * (string * value)) : list nat * (string * value) :=
  (0%nat :: a.1, a.2).

Definition place_in_rest (a : list nat * (string * value)) : list nat * (string * value) :=
  (shift_place a.1, a.2).

Definition placed_before (a b : list nat * (string * value)) : Prop :=
  visited_before a.1 b.1.

Section places.
Context `{urlparse.Lib}.

(** The scope in force for the fields of a node, given the scope in
    force for the node: joined with the node's [$id] or [id] when it
    declares one. *)
Definition scope_within (scope : value) (d : list (string * value)) : option value :=
  match declared_id d with
  | Some i =>
      match fixed_urljoin scope i with
      | Ok new_scope => Some (Str new_scope)
      | Raise _ => None
      end
  | None => Some scope
  end.

(** The scope current at the node at place [p], below a root whose
    own scope is [scope]. *)
Fixpoint scope_at (scope : value) (v : value) (p : list nat) : option value :=
  match p with
  | [] => Some scope
  | i :: rest =>
      match v with
      | Dict d =>
          match d !! i, scope_within scope d with
          | Some kv, Some inner => scope_at inner kv.2 rest
          | _, _ => None
          end
      | List l =>
          match l !! i with
          | Some item => scope_at scope item rest
          | None => None
          end
      | _ => None
      end
  end.

(** The places [walk] gets to: the root, and from a map that has no
    text [$ref], those of its fields that are maps. *)
Fixpoint reached (v : value) (p : list nat) : Prop :=
  match p with
  | [] => True
  | i :: rest =>
      match v with
      | Dict d =>
          str_ref d = None
          /\ exists key child, d !! i = Some (key, Dict child) /\ reached (Dict child) rest
      | _ => False
      end
  end.

(** C2 as it is worded, for a walk from [scope] that turned [root]
    into [root'] and the store into [st]: at every place of the tree
    that holds a map with a text [$ref], the field is now the join of
    the reference against the scope current there; and every map that
    declares a text [$id] or [id] is in the store under the normalized
    join of that identifier against the scope current there. *)
Definition every_ref_rewritten (scope root root' : value) : Prop :=
  forall p d ref s,
    subnode root p = Some (Dict d) ->
    str_ref d = Some ref ->
    scope_at scope root p = Some s ->
    exists absolute d',
      fixed_urljoin s ref = Ok absolute
      /\ subnode root' p = Some (Dict d')
      /\ dict_get "$ref" d' = Some (Str absolute).

Definition every_id_stored (scope root : value) (st : gmap string value) : Prop :=
  forall p d i s,
    subnode root p = Some (Dict d) ->
    declared_id d = Some i ->
    scope_at scope root p = Some s ->
    exists new_scope key,
      fixed_urljoin s i = Ok new_scope
      /\ normalize new_scope = Ok key
      /\ is_Some (st !! key).

(** The node at place [p] is reached by the walk, has no text [$ref]
    and declares a text identifier whose join against the scope
    current there normalizes to [key]. *)
Definition declares_at (scope root : value) (p : list nat) (key : string) : Prop :=
  reached root p
  /\ exists d i s new_scope,
       subnode root p = Some (Dict d)
       /\ str_ref d = None
       /\ declared_id d = Some i
       /\ scope_at scope root p = Some s
       /\ fixed_urljoin s i = Ok new_scope
       /\ normalize new_scope = Ok key.

(** [pw] is the writes of the walk, each with the place of the node
    written, in the order of the visit. *)
Definition placed_writes (scope root : value)
    (pw : list (list nat * (string * value))) : Prop :=
  pw.*2 = writes (walk scope root)
  /\ StronglySorted placed_before pw
  /\ (forall q key node,
        (q, (key, node)) ∈ pw ->
        declares_at scope root q key
        /\ subnode (tree (walk scope root)) q = Some node)
  /\ (raised (walk scope root) = None ->
      forall q key, declares_at scope root q key -> exists node, (q, (key, node)) ∈ pw).

Definition placed_item_writes (scope : value) (items : list (string * value))
    (pw : list (list nat * (string * value))) : Prop :=
  pw.*2 = writes (walk_items scope items)
  /\ StronglySorted placed_before pw
  /\ (forall q key node,
        (q, (key, node)) ∈ pw ->
        exists i rest k child,
          q = i :: rest
          /\ items !! i = Some (k, Dict child)
          /\ declares_at scope (Dict child) rest key
          /\ tree (walk_items scope items) !! i = Some (k, tree (walk scope (Dict child)))
          /\ subnode (tree (walk scope (Dict child))) rest = Some node)
  /\ (raised (walk_items scope items) = None ->
      forall i rest k child key,
        items !! i = Some (k, Dict child) ->
        declares_at scope (Dict child) rest key ->
        exists node, (i :: rest, (key, node)) ∈ pw).

End places.

(** *** Data for the examples *)

(** A handler for the scheme [mem], which answers every URI with a
    document that holds the URI. *)
Definition mem_handlers : handler_map :=
  fun scheme =>
    if String.eqb scheme "mem"
    then Some (fun uri => Ok (Dict [("title", Str uri); ("items", List [Int 7])]))
    else None.

(** A resolver for the root document [http://example.com/root.json],
    with the store object at [default_store]. *)
Definition root_resolver (cache : bool) : RefResolver :=
  mkResolver (Str "http://example.com/root.json") (Str "http://example.com/root.json")
             (Dict [("type", Str "object")]) default_store cache mem_handlers ∅ ∅.

(** A schema with nested identifiers, a property named [id], and
    references below maps and below a sequence. *)
Definition nested_schema : value :=
  Dict [("$id", Str "http://example.com/root.json");
        ("properties",
         Dict [("a", Dict [("$ref", Str "#/definitions/x")]);
               ("id", Dict [("type", Str "string")]);
               ("b", Dict [("id", Str "sub/b.json");
                           ("items", Dict [("$ref", Str "c.json")])])]);
        ("anyOf", List [Dict [("$ref", Str "item.json")]])].

(** Two fields that declare the same identifier. *)
Definition twice_declared : value :=
  Dict [("a", Dict [("$id", Str "http://example.com/s.json"); ("title", Str "first")]);
        ("b", Dict [("$id", Str "http://example.com/s.json"); ("title", Str "second")])].


(** A reference, and an identifier, inside a sequence. *)
Definition ref_in_sequence : value :=
  Dict [("anyOf", List [Dict [("$ref", Str "item.json")]])].

Definition id_in_sequence : value :=
  Dict [("items", List [Dict [("$id", Str "item.json")]])].

(** *** Notions for the further properties *)

(** Two trees that differ at most in the text held under [$ref] keys
    of maps. *)
Fixpoint only_refs_differ (v v' : value) {struct v} : Prop :=
  match v, v' with
  | Dict d, Dict d' =>
      (fix items (d d' : list (string * value)) {struct d} : Prop :=
         match d, d' with
         | [], [] => True
         | (k, x) :: r, (k', x') :: r' =>
             k = k'
             /\ (only_refs_differ x x'
                 \/ (k = "$ref" /\ exists s s', x = Str s /\ x' = Str s'))
             /\ items r r'
         | _, _ => False
         end) d d'
  | _, _ => v = v'
  end.

Fixpoint only_refs_differ_items (d d' : list (string * value)) : Prop :=
  match d, d' with
  | [], [] => True
  | (k, x) :: r, (k', x') :: r' =>
      k = k'
      /\ (only_refs_differ x x'
          \/ (k = "$ref" /\ exists s s', x = Str s /\ x' = Str s'))
      /\ only_refs_differ_items r r'
  | _, _ => False
  end.

(** A character of a Python identifier as [get_scope_name] makes them:
    a lower-case letter, a digit or an underscore. *)
Definition ident_char (c : ascii) : bool :=
  PyStr.is_lower c || PyStr.is_digit c || Ascii.eqb c "_".

(** The resolver with other handlers and another cache flag. *)
Definition set_handlers_cache (hs : handler_map) (c : bool) (r : RefResolver)
  : RefResolver :=
  mkResolver (base_uri r) (resolution_scope r) (schema r) (store r) c hs
             (unique_name_registry r) (unique_names_taken r).

(** * Properties *)

(** ** Python strings and dicts *)

#[local] Arguments PyStr.replace : simpl never.

Lemma replace_nil (a : ascii) (old new : string) :
  PyStr.replace (String a old) new "" = "".
Proof. reflexivity. Qed.

Lemma replace_pair_cons (a b n c : ascii) (t : string) :
  PyStr.replace (String a (String b "")) (String n "") (String c t) =
  if Ascii.eqb a c && match t with String d _ => Ascii.eqb b d | EmptyString => false end
  then String n (PyStr.replace (String a (String b "")) (String n "") (PyStr.drop 1 t))
  else String c (PyStr.replace (String a (String b "")) (String n "") t).
Proof.
  unfold PyStr.replace. cbn [PyStr.replace_go PyStr.startswith String.length].
  destruct (Ascii.eqb a c); [|reflexivity].
  destruct t as [|d t']; [reflexivity|].
  cbn [PyStr.startswith]. destruct (Ascii.eqb b d); reflexivity.
Qed.

Lemma replace_pair_other (a b n c : ascii) (t : string) :
  Ascii.eqb a c = false ->
  PyStr.replace (String a (String b "")) (String n "") (String c t) =
  String c (PyStr.replace (String a (String b "")) (String n "") t).
Proof. intros Hc. rewrite replace_pair_cons, Hc. reflexivity. Qed.

Lemma replace_pair_hit (a b n : ascii) (t : string) :
  PyStr.replace (String a (String b "")) (String n "") (String a (String b t)) =
  String n (PyStr.replace (String a (String b "")) (String n "") t).
Proof. rewrite replace_pair_cons, !Ascii.eqb_refl. reflexivity. Qed.

Lemma replace_pair_miss (a b n d : ascii) (t : string) :
  Ascii.eqb b d = false ->
  PyStr.replace (String a (String b "")) (String n "") (String a (String d t)) =
  String a (PyStr.replace (String a (String b "")) (String n "") (String d t)).
Proof. intros Hd. rewrite replace_pair_cons, Hd, andb_false_r. reflexivity. Qed.

Lemma replace_pair_last (a b n c : ascii) :
  PyStr.replace (String a (String b "")) (String n "") (String c "") = String c "".
Proof. rewrite replace_pair_cons, andb_false_r. reflexivity. Qed.

Lemma rfc6901_unescape_other (c : ascii) (t : string) :
  Ascii.eqb c "~" = false ->
  rfc6901_unescape (String c t) = String c (rfc6901_unescape t).
Proof. intros Hc. cbn [rfc6901_unescape]. rewrite Hc. reflexivity. Qed.

Lemma rfc6901_unescape_miss (d : ascii) (t : string) :
  Ascii.eqb d "0" = false -> Ascii.eqb d "1" = false ->
  rfc6901_unescape (String "~" (String d t)) = String "~" (rfc6901_unescape (String d t)).
Proof.
  intros H0 H1. change (rfc6901_unescape (String "~" (String d t))) with
    (if Ascii.eqb d "0" then String "~" (rfc6901_unescape t)
     else if Ascii.eqb d "1" then String "/" (rfc6901_unescape t)
     else String "~" (rfc6901_unescape (String d t))).
  rewrite H0, H1. reflexivity.
Qed.

Lemma rfc6901_unescape_last (c : ascii) :
  rfc6901_unescape (String c "") = String c "".
Proof. cbn [rfc6901_unescape]. destruct (Ascii.eqb c "~"); reflexivity. Qed.

Lemma unescape_one_pass_aux (s : string) :
  PyStr.replace "~0" "~" (PyStr.replace "~1" "/" s) = rfc6901_unescape s
  /\ forall c, PyStr.replace "~0" "~" (PyStr.replace "~1" "/" (String c s))
               = rfc6901_unescape (String c s).
Proof.
  induction s as [|d t [IHt IHc]].
  - split; [reflexivity|]. intros c.
    rewrite !replace_pair_last, rfc6901_unescape_last. reflexivity.
  - split; [apply IHc|]. intros c.
    destruct (Ascii.eqb_spec c "~") as [->|Hc].
    + destruct (Ascii.eqb_spec d "0") as [->|Hd0].
      * rewrite (replace_pair_miss "~" "1" "/" "0") by reflexivity.
        rewrite (replace_pair_other "~" "1" "/" "0") by reflexivity.
        rewrite replace_pair_hit, IHt. reflexivity.
      * destruct (Ascii.eqb_spec d "1") as [->|Hd1].
        -- rewrite replace_pair_hit.
           rewrite (replace_pair_other "~" "0" "~" "/") by reflexivity.
           rewrite IHt. reflexivity.
        -- rewrite (replace_pair_miss "~" "1" "/" d)
             by (apply Ascii.eqb_neq; congruence).
           rewrite rfc6901_unescape_miss by (apply Ascii.eqb_neq; congruence).
           rewrite <- (IHc d).
           destruct (PyStr.replace "~1" "/" (String d t)) as [|d' t'] eqn:Hr.
           ++ rewrite replace_pair_last. reflexivity.
           ++ assert (Hd' : Ascii.eqb "0" d' = false).
              { rewrite replace_pair_cons in Hr.
                destruct (Ascii.eqb "~" d && _); inversion Hr; subst.
                - reflexivity.
                - apply Ascii.eqb_neq. congruence. }
              rewrite (replace_pair_miss "~" "0" "~" d') by exact Hd'.
              reflexivity.
    + rewrite (replace_pair_other "~" "1" "/" c) by (apply Ascii.eqb_neq; congruence).
      rewrite (replace_pair_other "~" "0" "~" c) by (apply Ascii.eqb_neq; congruence).
      rewrite rfc6901_unescape_other by (apply Ascii.eqb_neq; congruence).
      rewrite IHc. reflexivity.
Qed.

Lemma unescape_one_pass (s : string) :
  PyStr.replace "~0" "~" (PyStr.replace "~1" "/" s) = rfc6901_unescape s.
Proof. apply unescape_one_pass_aux. Qed.

Lemma dict_get_elem_of (k : string) (d : list (string * value)) (v : value) :
  NoDup d.*1 -> dict_get k d = Some v <-> (k, v) ∈ d.
Proof.
  induction d as [|[k' v'] d IH]; cbn [dict_get fmap list_fmap fst].
  - intros _. split; [discriminate|]. intros Hin. inversion Hin.
  - intros Hnd. apply NoDup_cons in Hnd as [Hk' Hnd].
    destruct (String.eqb_spec k' k) as [->|Hne].
    + split.
      * intros [= ->]. left.
      * intros Hin. apply elem_of_cons in Hin as [[= ->]|Hin]; [reflexivity|].
        exfalso. apply Hk'. apply list_elem_of_fmap. exists (k, v). split; [reflexivity|assumption].
    + rewrite IH by assumption. split.
      * intros Hin. right. exact Hin.
      * intros Hin. apply elem_of_cons in Hin as [[= -> ->]|Hin]; [contradiction|assumption].
Qed.

Lemma dict_get_None (k : string) (d : list (string * value)) :
  dict_get k d = None <-> k ∉ d.*1.
Proof.
  induction d as [|[k' v'] d IH]; cbn [dict_get fmap list_fmap fst].
  - split; [intros _ Hin; inversion Hin|reflexivity].
  - destruct (String.eqb_spec k' k) as [->|Hne].
    + split; [discriminate|]. intros Hn. exfalso. apply Hn. left.
    + rewrite IH. rewrite not_elem_of_cons. split; [intros Hn; split; congruence|intros [_ Hn]; exact Hn].
Qed.

(** ** JSON pointers *)









Section pointer.
Context `{urlparse.Lib}.



End pointer.



(** C7.  A token that is no valid index of a sequence does not end in
    a definition error: an index past the end raises [IndexError], a
    token that is no number raises [ValueError], and a negative index
    counts from the end and answers with an element.  Only a key absent
    from a map raises [JsonSchemaDefinitionException]. *)
Theorem resolve_path_invalid_index :
  let schema := Dict [("a", List [Int 1; Int 2])] in
  @resolve_path cpython schema "/a/5" = Raise IndexError
  /\ @resolve_path cpython schema "/a/x"
     = Raise (ValueError "invalid literal for int() with base 10: 'x'")
  /\ @resolve_path cpython schema "/a/-1" = Ok (Int 2)
  /\ @resolve_path cpython schema "/b"
     = Raise (JsonSchemaDefinitionException "Unresolvable ref: b").
Proof. vm_compute. repeat split. Qed.

(** ** URI joining *)
Section joining.
Context `{urlparse.Lib}.

(** C8, as the code has it.  With an [http] or [https] base the
    result is the standard join and nothing else, so a reference
    carrying the scheme of its base is still joined as a relative one.
    With any other base, a reference that carries a scheme is returned
    unchanged, and one that carries none is joined by the standard
    join against the base with [http] for its scheme, the scheme of
    the base then put back into the result. *)
Theorem fixed_urljoin_by_base_scheme (base ref : string) (parts0 : urlparse.SplitResult) :
  urlparse.urlsplit base = Ok parts0 ->
  (urlparse.scheme parts0 ∈ ["http"; "https"] ->
     fixed_urljoin (Str base) ref = urlparse.urljoin base ref)
  /\ (urlparse.scheme parts0 ∉ ["http"; "https"] ->
      forall parts1, urlparse.urlsplit ref = Ok parts1 ->
        (urlparse.scheme parts1 <> "" -> fixed_urljoin (Str base) ref = Ok ref)
        /\ (urlparse.scheme parts1 = "" ->
            fixed_urljoin (Str base) ref =
              let* joined_url :=
                urlparse.urljoin
                  (urlparse.urlunsplit (urlparse.with_scheme "http" parts0)) ref in
              let* joined_parts := urlparse.urlsplit joined_url in
              Ok (urlparse.urlunsplit
                    (urlparse.with_scheme (urlparse.scheme parts0) joined_parts)))).
Proof.
  intros Hsplit. unfold fixed_urljoin, fixed_urljoin_str. rewrite Hsplit. cbn [rbind].
  split.
  - intros Hin. rewrite bool_decide_eq_true_2 by assumption. reflexivity.
  - intros Hnotin parts1 Hsplit1.
    rewrite bool_decide_eq_false_2 by assumption.
    rewrite Hsplit1. cbn [rbind]. split.
    + intros Hne. destruct (String.eqb_spec (urlparse.scheme parts1) ""); [contradiction|].
      reflexivity.
    + intros ->. reflexivity.
Qed.

End joining.

(** An instance of C8: a relative reference against a base with a
    scheme of its own. *)
Lemma fixed_urljoin_by_base_scheme_witness :
  @fixed_urljoin cpython (Str "custom://host/a/b.json") "c.json#/x"
  = Ok "custom://host/a/c.json#/x".
Proof.
  pose proof (@fixed_urljoin_by_base_scheme cpython "custom://host/a/b.json" "c.json#/x"
                (urlparse.mkSplit "custom" "host" "/a/b.json" "" "") eq_refl) as [_ Hother].
  assert (Hnot : "custom" ∉ ["http"; "https"]).
  { intros Hin. apply elem_of_cons in Hin as [Heq|Hin]; [discriminate|].
    apply elem_of_cons in Hin as [Heq|Hin]; [discriminate|]. inversion Hin. }
  destruct (Hother Hnot (urlparse.mkSplit "" "" "c.json" "" "/x") eq_refl) as [_ Hrel].
  rewrite (Hrel eq_refl). vm_compute. reflexivity.
Defined.

(** C8 as stated fails: under an [http] base, a reference that carries
    the scheme [http] but no authority is joined as a relative one. *)
Lemma fixed_urljoin_same_scheme_joined :
  @urlparse.urlsplit cpython "http:g" = Ok (urlparse.mkSplit "http" "" "g" "" "")
  /\ @fixed_urljoin cpython (Str "http://a/b/c") "http:g" = Ok "http://a/b/g"
  /\ @fixed_urljoin cpython (Str "http://a/b/c") "http:g" <> Ok "http:g".
Proof. vm_compute. repeat split. discriminate. Qed.

(** ** [walk] unfolded *)
Section walk_unfolding.
Context `{urlparse.Lib}.

(** [walk] on a map, with its loop named. *)
Lemma walk_Dict (scope : value) (d : list (string * value)) :
  walk scope (Dict d) =
  match str_ref d with
  | Some ref =>
      match fixed_urljoin scope ref with
      | Ok absolute => mkWalked (Dict (dict_set "$ref" (Str absolute) d)) [] None
      | Raise e => mkWalked (Dict d) [] (Some e)
      end
  | None =>
      match declared_id d with
      | Some i =>
          match (let* new_scope := fixed_urljoin scope i in
                 let* key := normalize new_scope in
                 Ok (new_scope, key)) with
          | Raise e => mkWalked (Dict d) [] (Some e)
          | Ok (new_scope, key) =>
              let ws := walk_items (Str new_scope) d in
              mkWalked (Dict (tree ws)) ((key, Dict (tree ws)) :: writes ws) (raised ws)
          end
      | None =>
          let ws := walk_items scope d in
          mkWalked (Dict (tree ws)) (writes ws) (raised ws)
      end
  end.
Proof.
  unfold str_ref. cbn [walk].
  destruct (dict_get "$ref" d) as [[]|]; reflexivity.
Qed.

(** A map that has no text [$ref], declares no text identifier and
    holds no map is walked to the end. *)
Lemma walk_items_flat (scope : value) (d : list (string * value)) :
  Forall (fun kv => forall c, kv.2 <> Dict c) d ->
  raised (walk_items scope d) = None.
Proof.
  induction 1 as [|[k item] rest Hitem _ IH]; [reflexivity|].
  cbn [walk_items]. destruct item; try exact IH.
  exfalso. exact (Hitem _ eq_refl).
Qed.

Lemma walk_flat (scope : value) (d : list (string * value)) :
  str_ref d = None -> declared_id d = None ->
  Forall (fun kv => forall c, kv.2 <> Dict c) d ->
  raised (walk scope (Dict d)) = None.
Proof.
  intros Href Hid Hflat. rewrite walk_Dict, Href, Hid. cbn.
  apply walk_items_flat. assumption.
Qed.

End walk_unfolding.

(** ** [get_id] and [from_schema] *)
Section identity.
Context `{urlparse.Lib}.

(** C10.  [get_id] answers with what the mapping holds under [$id];
    failing that, under [id]; failing that, with the empty string.
    [from_schema] builds the resolver with that value for its
    [base_uri] when the schema is a mapping, and with the empty string
    otherwise: it answers with such a resolver whenever the walk of
    the schema from that base completes, and raises what the walk
    raises otherwise; a mapping without a text [$ref], a text
    identifier or a map among its fields, and a boolean schema, always
    give a resolver. *)
Theorem get_id_from_schema :
  (forall d, NoDup d.*1 ->
     (forall v, ("$id", v) ∈ d -> get_id d = v)
     /\ ("$id" ∉ d.*1 -> forall v, ("id", v) ∈ d -> get_id d = v)
     /\ ("$id" ∉ d.*1 -> "id" ∉ d.*1 -> get_id d = Str ""))
  /\ (forall schema handlers store cache h r h',
        from_schema schema handlers store cache h = (Ok r, h') ->
        base_uri r = match schema with Dict d => get_id d | _ => Str "" end)
  /\ (forall schema handlers store cache h,
        let base := match schema with Dict d => get_id d | _ => Str "" end in
        (raised (walk base schema) = None ->
         exists r h', from_schema schema handlers store cache h = (Ok r, h')
                      /\ base_uri r = base)
        /\ (forall e, raised (walk base schema) = Some e ->
            (from_schema schema handlers store cache h).1 = Raise e))
  /\ (forall d handlers store cache h,
        str_ref d = None -> declared_id d = None ->
        Forall (fun kv => forall c, kv.2 <> Dict c) d ->
        exists r h', from_schema (Dict d) handlers store cache h = (Ok r, h')
                     /\ base_uri r = get_id d)
  /\ (forall b handlers store cache h,
        exists r h', from_schema (Bool b) handlers store cache h = (Ok r, h')
                     /\ base_uri r = Str "").
Proof.
  split; [|split; [|split; [|split]]].
  - intros d Hnd. unfold get_id. repeat split.
    + intros v Hin. apply dict_get_elem_of in Hin; [|assumption]. rewrite Hin. reflexivity.
    + intros Hno v Hin. apply dict_get_None in Hno. rewrite Hno.
      apply dict_get_elem_of in Hin; [|assumption]. rewrite Hin. reflexivity.
    + intros Hno1 Hno2. apply dict_get_None in Hno1, Hno2. rewrite Hno1, Hno2. reflexivity.
  - intros schema handlers store cache h r h'. unfold from_schema, __init__.
    destruct (raised (walk _ schema)); intros [= <- _]; reflexivity.
  - intros schema handlers store cache h base. unfold from_schema, __init__. fold base.
    cbv zeta. split.
    + intros ->. eexists _, _. split; reflexivity.
    + intros e ->. reflexivity.
  - intros d handlers store cache h Href Hid Hflat. unfold from_schema, __init__.
    cbv zeta. rewrite (walk_flat _ _ Href Hid Hflat).
    eexists _, _. split; reflexivity.
  - intros b handlers store cache h. unfold from_schema, __init__.
    eexists _, _. split; reflexivity.
Qed.

End identity.

(** An instance of C10: a schema that declares [id] only, and the
    resolver that [from_schema] builds for [nested_schema], a mapping
    that declares [$id]. *)
Lemma get_id_from_schema_witness :
  get_id [("type", Str "object"); ("id", Str "http://x/y.json")] = Str "http://x/y.json"
  /\ (exists r h', @from_schema cpython nested_schema mem_handlers None true ∅ = (Ok r, h')
                   /\ base_uri r = Str "http://example.com/root.json").
Proof.
  destruct (@get_id_from_schema cpython) as (Hid & _ & Hfrom & _). split.
  - assert (Hnd : NoDup ([("type", Str "object"); ("id", Str "http://x/y.json")].*1)).
    { apply (bool_decide_unpack _). vm_compute. exact I. }
    destruct (Hid _ Hnd) as (_ & Hlegacy & _).
    apply Hlegacy.
    + apply (bool_decide_unpack _). vm_compute. exact I.
    + apply list_elem_of_further, list_elem_of_here.
  - assert (Hw : raised (@walk cpython (Str "http://example.com/root.json") nested_schema)
                 = None)
      by (vm_compute; reflexivity).
    exact (proj1 (Hfrom nested_schema mem_handlers None true ∅) Hw).
Defined.

(** ** Scopes and resolution *)
Section resolution.
Context `{urlparse.Lib} `{Network}.

Lemma in_scope_restores {A} (scope : string) (block : M A) (self : RefResolver) (h : heap) :
  resolution_scope (in_scope scope block self h).1.2 = resolution_scope self.
Proof.
  unfold in_scope. destruct (fixed_urljoin _ scope); [|reflexivity].
  unfold try_finally. destruct (block _ h) as [[r self'] h']. reflexivity.
Qed.

Lemma resolving_document_self (ref : string) (self : RefResolver) (h : heap) :
  (resolving_document ref self h).1.2 = self.
Proof.
  unfold resolving_document.
  destruct (let* new_uri := _ in _) as [[[uri fragment] nu]|e]; [|reflexivity].
  destruct (store_of self h !! nu); [reflexivity|].
  destruct (_ || _); [reflexivity|].
  destruct (resolve_remote uri (handlers self)); [|reflexivity].
  destruct (cache self); [|reflexivity].
  destruct (urlparse.urlsplit nu); [|reflexivity].
  destruct (negb _); reflexivity.
Qed.

(** X15.  What the enclosed block is run on: the node the fragment
    leads to, in a resolver whose [base_uri] and [schema] are those of
    the document selected and whose scope is the URI of the document
    joined against the scope of the caller; afterwards the three fields
    are those of the caller again, and the rest is as the block left
    it. *)
Lemma resolving_runs_block {A} (ref : string) (block : value -> M A)
    (self : RefResolver) (h h1 : heap) (uri fragment new_scope : string)
    (doc target : value) :
  resolving_document ref self h = (Ok (uri, fragment, doc), self, h1) ->
  fixed_urljoin (resolution_scope self) uri = Ok new_scope ->
  resolve_path doc fragment = Ok target ->
  resolving ref block self h =
  match block target
          (set_resolution_scope (Str new_scope) (set_base_uri_schema (Str uri) doc self))
          h1 with
  | (r, self', h') =>
      (r,
       set_base_uri_schema (base_uri self) (schema self)
         (set_resolution_scope (resolution_scope self) self'),
       h')
  end.
Proof.
  intros Hdoc Hjoin Htarget. unfold resolving, mseq. rewrite Hdoc.
  unfold try_finally, in_scope. cbn [resolution_scope set_base_uri_schema].
  rewrite Hjoin. unfold try_finally, mseq, mlift. rewrite Htarget.
  destruct (block target _ h1) as [[r self'] h']. reflexivity.
Qed.

(** C3.  Whatever the reference and the enclosed block, and whether
    [resolving] ends normally or by an exception raised while the
    document is fetched, the fragment followed or the block run, the
    resolver's [base_uri], [schema] and [resolution_scope] are
    afterwards what they were before the call. *)
Theorem resolving_restores {A} (ref : string) (block : value -> M A)
    (self : RefResolver) (h : heap) :
  let self' := (resolving ref block self h).1.2 in
  base_uri self' = base_uri self
  /\ schema self' = schema self
  /\ resolution_scope self' = resolution_scope self.
Proof.
  cbn zeta. unfold resolving, mseq.
  pose proof (resolving_document_self ref self h) as Hself.
  destruct (resolving_document ref self h) as [[[[[uri fragment] doc]|e] self1] h1];
    cbn in Hself; subst self1; [|auto].
  unfold try_finally.
  match goal with
  | |- context [in_scope uri ?b ?s h1] =>
      pose proof (in_scope_restores uri b s h1) as Hscope;
      destruct (in_scope uri b s h1) as [[r self2] h2]
  end.
  cbn in Hscope |- *. auto.
Qed.



End resolution.

(** Three ways out of [resolving], on the resolver for
    [http://example.com/root.json] with nothing to fetch from: the fetch
    fails; the fragment names a key the document lacks; the enclosed
    block changes the three fields and raises.  Each time the resolver
    is left as it was. *)
Lemma resolving_exits_restored :
  @resolving cpython offline value "http://other.example/x.json" (fun v => mlift (Ok v))
    (root_resolver true) ∅
  = (Raise (OtherError "URLError"), root_resolver true, ∅)
  /\ @resolving cpython offline value "#/nope" (fun v => mlift (Ok v))
       (root_resolver true) ∅
     = (Raise (JsonSchemaDefinitionException "Unresolvable ref: nope"), root_resolver true, ∅)
  /\ @resolving cpython offline value "#/type"
       (fun _ self h =>
          (Raise (OtherError "RuntimeError"),
           set_resolution_scope Null (set_base_uri_schema Null Null self), h))
       (root_resolver true) ∅
     = (Raise (OtherError "RuntimeError"), root_resolver true, ∅).
Proof. vm_compute. repeat split. Qed.


(** ** Unique names *)

Lemma string_length_app (s1 s2 : string) :
  String.length (s1 +:+ s2) = (String.length s1 + String.length s2)%nat.
Proof.
  induction s1 as [|c s1 IH]; [reflexivity|].
  change (S (String.length (s1 +:+ s2)) = S (String.length s1 + String.length s2)).
  f_equal. exact IH.
Qed.

Lemma suffixed_inj (name : string) (i j : Z) :
  suffixed name i = suffixed name j -> i = j.
Proof.
  unfold suffixed. intros Heq.
  apply (inj (String.app name)) in Heq.
  apply (inj (String.app "_")) in Heq.
  apply (inj pretty) in Heq. exact Heq.
Qed.

Lemma suffixed_longer (name : string) (i : Z) : name <> suffixed name i.
Proof.
  unfold suffixed. intros Heq. apply (f_equal String.length) in Heq.
  rewrite !string_length_app in Heq. cbn in Heq. lia.
Qed.

Lemma candidate_inj (name : string) : Inj (=) (=) (candidate name).
Proof.
  intros [|i] [|j] Heq; cbn in Heq.
  - reflexivity.
  - exfalso. exact (suffixed_longer _ _ Heq).
  - exfalso. symmetry in Heq. exact (suffixed_longer _ _ Heq).
  - apply suffixed_inj in Heq. lia.
Qed.

(** No more than [size taken] of the candidates can be taken. *)
Lemma candidates_taken_bound (taken : gset string) (name : string) (n : nat) :
  (forall j, (j < n)%nat -> candidate name j ∈ taken) -> (n <= size taken)%nat.
Proof.
  intros Hall.
  pose (l := candidate name <$> seq 0 n).
  assert (Hnd : NoDup l).
  { pose proof (candidate_inj name) as Hinj. apply (NoDup_fmap_2 _). apply NoDup_seq. }
  assert (Hsub : list_to_set (C := gset string) l ⊆ taken).
  { intros x Hx. apply elem_of_list_to_set in Hx.
    apply list_elem_of_fmap in Hx as (j & -> & Hj).
    apply elem_of_seq in Hj. apply Hall. lia. }
  apply subseteq_size in Hsub.
  rewrite size_list_to_set in Hsub by assumption.
  unfold l in Hsub. rewrite length_fmap, length_seq in Hsub. exact Hsub.
Qed.

Lemma unique_name_loop_candidate (taken : gset string) (name : string) (fuel : nat) :
  forall k,
    (forall j, (j < k)%nat -> candidate name j ∈ taken) ->
    exists k',
      unique_name_loop fuel taken name (Z.of_nat k - 1) (candidate name k)
      = candidate name k'
      /\ (forall j, (j < k')%nat -> candidate name j ∈ taken)
      /\ (candidate name k' ∈ taken -> k' = (k + fuel)%nat).
Proof.
  induction fuel as [|fuel IH]; intros k Hbelow; cbn [unique_name_loop].
  - exists k. repeat split; [assumption|]. intros _. lia.
  - destruct (decide (candidate name k ∈ taken)) as [Hin|Hout].
    + rewrite bool_decide_eq_true_2 by assumption.
      replace (Z.of_nat k - 1 + 1) with (Z.of_nat k) by lia.
      change (suffixed name (Z.of_nat k)) with (candidate name (S k)).
      replace (Z.of_nat k) with (Z.of_nat (S k) - 1) by lia.
      destruct (IH (S k)) as (k' & Heq & Hall & Hlast).
      { intros j Hj. destruct (decide (j = k)) as [->|Hne]; [assumption|].
        apply Hbelow. lia. }
      exists k'. repeat split; [assumption|assumption|].
      intros Hin'. rewrite (Hlast Hin'). lia.
    + rewrite bool_decide_eq_false_2 by assumption.
      exists k. repeat split; [assumption|]. intros Hin. contradiction.
Qed.

(** The loop ends on the first candidate that is free, whatever fuel
    above [size taken] it is given. *)
Lemma unique_name_loop_free (taken : gset string) (name : string) :
  exists k,
    (candidate name k ∉ taken)
    /\ (forall j, (j < k)%nat -> candidate name j ∈ taken)
    /\ forall fuel, (size taken < fuel)%nat ->
         unique_name_loop fuel taken name (-1) name = candidate name k.
Proof.
  destruct (unique_name_loop_candidate taken name (S (size taken)) 0) as (k & Heq & Hall & Hlast).
  { intros j Hj. lia. }
  assert (Hfree : candidate name k ∉ taken).
  { intros Hin. specialize (Hlast Hin). subst k.
    pose proof (candidates_taken_bound _ _ _ Hall). lia. }
  exists k. repeat split; [assumption|assumption|].
  intros fuel Hfuel.
  destruct (unique_name_loop_candidate taken name fuel 0) as (k2 & Heq2 & Hall2 & Hlast2).
  { intros j Hj. lia. }
  change (Z.of_nat 0 - 1) with (-1) in Heq2. change (candidate name 0) with name in Heq2.
  rewrite Heq2. f_equal.
  assert (Hfree2 : candidate name k2 ∉ taken).
  { intros Hin. specialize (Hlast2 Hin). subst k2.
    pose proof (candidates_taken_bound _ _ _ Hall2). lia. }
  destruct (Nat.lt_trichotomy k2 k) as [Hlt|[Heqk|Hgt]]; [|assumption|].
  - exfalso. apply Hfree2. apply Hall. assumption.
  - exfalso. apply Hfree. apply Hall2. assumption.
Qed.

Lemma alnum_not_at_dollar (c : ascii) (t : string) :
  PyStr.is_alnum c = true -> at_dollar (String c t) = false.
Proof.
  intros Hc. unfold at_dollar. cbn [String.eqb orb].
  destruct (Ascii.eqb_spec c "010") as [->|Hne]; [discriminate Hc|reflexivity].
Qed.

Lemma lower_re_sub_name (s : string) :
  PyStr.lower (re_sub_name s) = map_chars name_char s.
Proof.
  induction s as [|c t IH]; [reflexivity|].
  cbn [re_sub_name map_chars]. unfold name_char at 1.
  destruct (PyStr.is_alnum c) eqn:Hc.
  - rewrite alnum_not_at_dollar by assumption. cbn [andb orb negb PyStr.lower].
    rewrite IH. reflexivity.
  - rewrite orb_true_r. cbn [PyStr.lower]. rewrite IH. reflexivity.
Qed.

Section names.
Context `{urlparse.Lib}.

(** A call of [get_scope_name] in a scope that has no name yet. *)
Lemma get_scope_name_new (self : RefResolver) (h : heap) (scope : string) :
  resolution_scope self = Str scope ->
  unique_name_registry self !! scope = None ->
  exists k,
    let unique_name := candidate (scope_base_name scope) k in
    get_scope_name self h
    = (Ok unique_name,
       set_unique_names (<[scope := unique_name]> (unique_name_registry self))
                        ({[unique_name]} ∪ unique_names_taken self) self,
       h)
    /\ (unique_name ∉ unique_names_taken self)
    /\ (forall j, (j < k)%nat ->
          candidate (scope_base_name scope) j ∈ unique_names_taken self).
Proof.
  intros Hscope Hnew.
  destruct (unique_name_loop_free (unique_names_taken self) (scope_base_name scope))
    as (k & Hfree & Hbelow & Hloop).
  exists k. cbn zeta. split; [|split; assumption].
  unfold get_scope_name. rewrite Hscope, Hnew.
  rewrite Hloop by lia. cbn [unique_name_registry set_unique_names].
  rewrite lookup_insert_eq. reflexivity.
Qed.

(** A call of [get_scope_name] in a scope that has a name. *)
Lemma get_scope_name_known (self : RefResolver) (h : heap) (scope name : string) :
  resolution_scope self = Str scope ->
  unique_name_registry self !! scope = Some name ->
  get_scope_name self h = (Ok name, self, h).
Proof.
  intros Hscope Hknown. unfold get_scope_name. rewrite Hscope, Hknown, Hknown. reflexivity.
Qed.

(** C5, as the code has it.  The base name is [validate_] followed
    by the percent-decoded scope, in which [~1] and [~0] have become
    an underscore and double quotes are gone; then every character
    that is neither letter nor digit is one underscore, runs are not
    collapsed, letters are lower case, and the underscores at the end
    are cut.  In a scope that has no name yet, the name given is the
    first that is not taken among the base name and the base name
    with [_0], [_1] and so on. *)
Theorem get_scope_name_first_free (self : RefResolver) (h : heap) (scope : string) :
  resolution_scope self = Str scope ->
  unique_name_registry self !! scope = None ->
  scope_base_name scope
  = PyStr.rstrip "_"
      (map_chars name_char
         (PyStr.replace (String "034" "") ""
            (PyStr.replace "~0" "_"
               (PyStr.replace "~1" "_" ("validate_" +:+ urlparse.unquote scope)))))
  /\ exists k,
      (get_scope_name self h).1.1 = Ok (candidate (scope_base_name scope) k)
      /\ (candidate (scope_base_name scope) k ∉ unique_names_taken self)
      /\ (forall j, (j < k)%nat ->
            candidate (scope_base_name scope) j ∈ unique_names_taken self).
Proof.
  intros Hscope Hnew. split.
  - unfold scope_base_name. rewrite lower_re_sub_name. reflexivity.
  - destruct (get_scope_name_new self h scope Hscope Hnew) as (k & Hrun & Hfree & Hbelow).
    exists k. rewrite Hrun. auto.
Qed.

Lemma get_scope_name_consistent (self : RefResolver) (h : heap) :
  names_consistent self ->
  names_consistent (get_scope_name self h).1.2
  /\ (forall scope name,
        unique_name_registry self !! scope = Some name ->
        unique_name_registry (get_scope_name self h).1.2 !! scope = Some name)
  /\ (forall scope,
        resolution_scope self = Str scope ->
        exists name,
          (get_scope_name self h).1.1 = Ok name
          /\ unique_name_registry (get_scope_name self h).1.2 !! scope = Some name).
Proof.
  intros [Htaken Hinj].
  destruct (resolution_scope self) as [| | | | scope | |] eqn:Hscope;
    try (unfold get_scope_name; rewrite Hscope; cbn;
         split; [split; assumption|]; split; [auto|]; intros ? [=]).
  destruct (unique_name_registry self !! scope) as [name|] eqn:Hreg.
  - rewrite (get_scope_name_known self h scope name Hscope Hreg). cbn.
    split; [split; assumption|]. split; [auto|].
    intros ? [= <-]. exists name. auto.
  - destruct (get_scope_name_new self h scope Hscope Hreg) as (k & Hrun & Hfree & _).
    cbn zeta in Hrun, Hfree. rewrite Hrun.
    unfold set_unique_names. simpl.
    set (unique_name := candidate (scope_base_name scope) k) in *.
    split; [split; simpl|split].
    + intros s n Hs. destruct (decide (scope = s)) as [->|Hne].
      * rewrite lookup_insert_eq in Hs. injection Hs as <-. set_solver.
      * rewrite lookup_insert_ne in Hs by assumption.
        apply Htaken in Hs. set_solver.
    + intros s1 s2 n Hs1 Hs2.
      destruct (decide (scope = s1)) as [<-|Hne1], (decide (scope = s2)) as [<-|Hne2];
        [reflexivity| | |].
      * rewrite lookup_insert_eq in Hs1. injection Hs1 as <-.
        rewrite lookup_insert_ne in Hs2 by assumption.
        apply Htaken in Hs2. contradiction.
      * rewrite lookup_insert_eq in Hs2. injection Hs2 as <-.
        rewrite lookup_insert_ne in Hs1 by assumption.
        apply Htaken in Hs1. contradiction.
      * rewrite lookup_insert_ne in Hs1, Hs2 by assumption. eapply Hinj; eassumption.
    + intros s n Hs. rewrite lookup_insert_ne; [assumption|]. congruence.
    + intros ? [= <-]. exists unique_name. rewrite lookup_insert_eq. auto.
Qed.

Lemma name_scopes_registry (scopes : list value) :
  forall self h,
    names_consistent self ->
    names_consistent (name_scopes scopes self h).2
    /\ (forall scope name,
          unique_name_registry self !! scope = Some name ->
          unique_name_registry (name_scopes scopes self h).2 !! scope = Some name)
    /\ (forall i scope,
          scopes !! i = Some (Str scope) ->
          exists name,
            (name_scopes scopes self h).1 !! i = Some (Ok name)
            /\ unique_name_registry (name_scopes scopes self h).2 !! scope = Some name).
Proof.
  induction scopes as [|s rest IH]; intros self h Hcons; cbn [name_scopes].
  - cbn. split; [assumption|]. split; [auto|]. intros i scope [=].
  - pose proof (get_scope_name_consistent (set_resolution_scope s self) h) as Hstep.
    destruct (get_scope_name (set_resolution_scope s self) h) as [[r self1] h1].
    cbn in Hstep. destruct (Hstep Hcons) as (Hcons1 & Hmono1 & Hans1).
    specialize (IH self1 h1 Hcons1).
    destruct (name_scopes rest self1 h1) as [rs last]. cbn in IH |- *.
    destruct IH as (Hconsl & Hmonol & Hansl).
    split; [assumption|]. split; [auto|].
    intros [|i] scope Hi; cbn in Hi |- *.
    + injection Hi as ->. destruct (Hans1 scope eq_refl) as (name & -> & Hreg).
      exists name. auto.
    + apply Hansl. assumption.
Qed.

(** C4.  In any sequence of calls of [get_scope_name] on a resolver
    whose registry is consistent, as that of a new resolver is, every
    call made in a scope that is text answers with a name; two calls
    answer with the same name exactly when they were made in the same
    scope; and a name once registered for a scope stays registered for
    it. *)
Theorem get_scope_name_stable_and_unique (scopes : list value) (self : RefResolver)
    (h : heap) (i j : nat) (scope_i scope_j : string) :
  names_consistent self ->
  scopes !! i = Some (Str scope_i) ->
  scopes !! j = Some (Str scope_j) ->
  (exists name_i name_j,
      (name_scopes scopes self h).1 !! i = Some (Ok name_i)
      /\ (name_scopes scopes self h).1 !! j = Some (Ok name_j)
      /\ (name_i = name_j <-> scope_i = scope_j))
  /\ (forall scope name,
        unique_name_registry self !! scope = Some name ->
        unique_name_registry (name_scopes scopes self h).2 !! scope = Some name).
Proof.
  intros Hcons Hi Hj.
  destruct (name_scopes_registry scopes self h Hcons) as ([_ Hinj] & Hkept & Hans).
  split; [|exact Hkept].
  destruct (Hans i scope_i Hi) as (name_i & Hri & Hregi).
  destruct (Hans j scope_j Hj) as (name_j & Hrj & Hregj).
  exists name_i, name_j. split; [assumption|]. split; [assumption|]. split.
  - intros <-. eapply Hinj; eassumption.
  - intros <-. congruence.
Qed.

End names.

Lemma names_consistent_new (b sc s : value) (l : loc) (c : bool) (hs : handler_map) :
  names_consistent (mkResolver b sc s l c hs ∅ ∅).
Proof. split; cbn; intros *; rewrite lookup_empty; discriminate. Qed.

(** The resolver that [__init__] answers with has a consistent
    registry. *)
Lemma init_names_consistent `{urlparse.Lib} (b s : value) (st : option loc) (c : bool)
    (hs : handler_map) (h h' : heap) (r : RefResolver) :
  __init__ b s st c hs h = (Ok r, h') -> names_consistent r.
Proof.
  unfold __init__. destruct (raised (walk b s)); [discriminate|].
  intros [= <- _]. apply names_consistent_new.
Qed.

(** An instance of C4: three scopes whose base names coincide, the
    first of them named twice. *)
Lemma get_scope_name_stable_and_unique_witness :
  (@name_scopes cpython [Str "a/b"; Str "a?b"; Str "a/b"; Str "a_b"] (root_resolver true) ∅).1
  = [Ok "validate_a_b"; Ok "validate_a_b_0"; Ok "validate_a_b"; Ok "validate_a_b_1"]
  /\ exists name_i name_j,
      (@name_scopes cpython [Str "a/b"; Str "a?b"; Str "a/b"; Str "a_b"]
         (root_resolver true) ∅).1 !! 0%nat = Some (Ok name_i)
      /\ (@name_scopes cpython [Str "a/b"; Str "a?b"; Str "a/b"; Str "a_b"]
            (root_resolver true) ∅).1 !! 1%nat = Some (Ok name_j)
      /\ (name_i = name_j <-> "a/b" = "a?b").
Proof.
  split; [vm_compute; reflexivity|].
  exact (proj1 (@get_scope_name_stable_and_unique cpython
                  [Str "a/b"; Str "a?b"; Str "a/b"; Str "a_b"] (root_resolver true) ∅
                  0%nat 1%nat "a/b" "a?b"
                  (names_consistent_new _ _ _ _ _ _) eq_refl eq_refl)).
Defined.

(** An instance of C5: the scope [a?b] when [validate_a_b] and
    [validate_a_b_0] are taken. *)
Lemma get_scope_name_first_free_witness :
  (@get_scope_name cpython
     (mkResolver (Str "") (Str "a?b") (Bool true) default_store true (fun _ => None)
                 ∅ {["validate_a_b"; "validate_a_b_0"]}) ∅).1.1
  = Ok "validate_a_b_1"
  /\ exists k,
    (@get_scope_name cpython
       (mkResolver (Str "") (Str "a?b") (Bool true) default_store true (fun _ => None)
                   ∅ {["validate_a_b"; "validate_a_b_0"]}) ∅).1.1
    = Ok (candidate (@scope_base_name cpython "a?b") k)
    /\ (candidate (@scope_base_name cpython "a?b") k
        ∉ ({["validate_a_b"; "validate_a_b_0"]} : gset string)).
Proof.
  split; [vm_compute; reflexivity|].
  destruct (@get_scope_name_first_free cpython
              (mkResolver (Str "") (Str "a?b") (Bool true) default_store true (fun _ => None)
                          ∅ {["validate_a_b"; "validate_a_b_0"]}) ∅ "a?b"
              eq_refl (lookup_empty _))
    as (_ & k & Hname & Hfree & _).
  exists k. split; assumption.
Defined.

(** C5 as stated fails: the two slashes of [a//b] give two
    underscores, where collapsing the run would give one. *)
Lemma scope_base_name_keeps_runs :
  @scope_base_name cpython "a//b" = "validate_a__b"
  /\ @collapsed_base_name cpython "a//b" = "validate_a_b"
  /\ (@get_scope_name cpython
        (mkResolver (Str "") (Str "a//b") (Bool true) default_store true (fun _ => None) ∅ ∅)
        ∅).1.1 = Ok "validate_a__b"
  /\ @scope_base_name cpython "a//b" <> @collapsed_base_name cpython "a//b".
Proof. vm_compute. repeat split. discriminate. Qed.

(** ** The walk over a schema *)
Section walking.
Context `{urlparse.Lib}.

#[local] Arguments walk : simpl never.

(** What the loop over the items of a node does to a field that is
    a map, when the loop completes. *)
Lemma walk_items_field (scope : value) (items : list (string * value)) :
  raised (walk_items scope items) = None ->
  forall i key child,
    items !! i = Some (key, Dict child) ->
    raised (walk scope (Dict child)) = None
    /\ tree (walk_items scope items) !! i = Some (key, tree (walk scope (Dict child)))
    /\ (forall w, w ∈ writes (walk scope (Dict child)) ->
                  w ∈ writes (walk_items scope items)).
Proof.
  induction items as [|[k item] rest IH]; intros Hdone i key child Hi.
  - discriminate Hi.
  - cbn [walk_items] in Hdone |- *.
    destruct i as [|i]; cbn in Hi.
    + injection Hi as -> ->. cbv zeta in Hdone |- *.
      destruct (raised (walk scope (Dict child))) eqn:Hchild; [discriminate Hdone|].
      cbn. split; [reflexivity|]. split; [reflexivity|].
      intros w Hw. apply elem_of_app. left. assumption.
    + assert (Hrest : raised (walk_items scope rest) = None).
      { destruct item; cbn in Hdone; try exact Hdone.
        destruct (raised (walk scope (Dict d))); [discriminate Hdone|exact Hdone]. }
      destruct (IH Hrest i key child Hi) as (Hc & Ht & Hw).
      split; [assumption|].
      destruct item; cbn; try (split; [assumption|assumption]).
      destruct (raised (walk scope (Dict d))); [discriminate Hdone|].
      cbn. split; [assumption|].
      intros w Hin. apply elem_of_app. right. apply Hw. assumption.
Qed.

(** The last write under a key is what the store holds. *)
Lemma apply_writes_lookup (ws : list (string * value)) :
  forall (st : gmap string value) key,
    apply_writes ws st !! key
    = match last (filter (fun w => w.1 = key) ws) with
      | Some w => Some w.2
      | None => st !! key
      end.
Proof.
  unfold apply_writes.
  induction ws as [|[k n] ws IH]; intros st key; [reflexivity|].
  cbn [foldl]. rewrite IH. cbn [fst snd].
  rewrite filter_cons. cbn [fst].
  destruct (decide (k = key)) as [->|Hne].
  - rewrite last_cons. destruct (last (filter _ ws)); [reflexivity|].
    cbn. apply lookup_insert_eq.
  - destruct (last (filter _ ws)); [reflexivity|].
    apply lookup_insert_ne. assumption.
Qed.

Lemma apply_writes_stored (ws : list (string * value)) (st : gmap string value)
    (key : string) (node : value) :
  (key, node) ∈ ws ->
  exists node', apply_writes ws st !! key = Some node' /\ (key, node') ∈ ws.
Proof.
  intros Hin. rewrite apply_writes_lookup.
  destruct (last (filter (fun w => w.1 = key) ws)) as [[k n]|] eqn:Hl.
  - exists n. split; [reflexivity|].
    apply last_Some_elem_of in Hl. apply list_elem_of_filter in Hl as [Hk Hin'].
    cbn in Hk. subst k. assumption.
  - apply last_None in Hl.
    assert (Hf : (key, node) ∈ filter (fun w : string * value => w.1 = key) ws).
    { apply list_elem_of_filter. split; [reflexivity|assumption]. }
    rewrite Hl in Hf. inversion Hf.
Qed.

Lemma walk_reached_aux (root : value) :
  forall scope p d,
    raised (walk scope root) = None ->
    reached root p ->
    subnode root p = Some (Dict d) ->
    exists s,
      scope_at scope root p = Some s
      /\ (forall ref,
            str_ref d = Some ref ->
            exists absolute,
              fixed_urljoin s ref = Ok absolute
              /\ subnode (tree (walk scope root)) p
                 = Some (Dict (dict_set "$ref" (Str absolute) d)))
      /\ (str_ref d = None ->
          forall i,
            declared_id d = Some i ->
            exists new_scope key node',
              fixed_urljoin s i = Ok new_scope
              /\ normalize new_scope = Ok key
              /\ subnode (tree (walk scope root)) p = Some node'
              /\ (key, node') ∈ writes (walk scope root)).
Proof.
  induction root as [| b | z | m e | s | l IHl | d0 IH] using value_nested_ind;
    intros scope p d Hdone Hreach Hsub;
    try (destruct p; [discriminate Hsub|destruct Hreach]).
  destruct p as [|i p].
  - (* the root itself *)
    injection Hsub as <-. exists scope. split; [reflexivity|].
    rewrite walk_Dict in Hdone |- *. split.
    + intros ref Href. rewrite Href in Hdone |- *.
      destruct (fixed_urljoin scope ref) as [absolute|e]; [|discriminate Hdone].
      exists absolute. split; reflexivity.
    + intros Hnoref i Hid. rewrite Hnoref, Hid in Hdone |- *.
      destruct (fixed_urljoin scope i) as [new_scope|e] eqn:Hjoin; [|discriminate Hdone].
      cbn [rbind] in Hdone |- *.
      destruct (normalize new_scope) as [key|e] eqn:Hnorm; [|discriminate Hdone].
      cbn [rbind] in Hdone |- *. cbv zeta. simpl.
      exists new_scope, key, (Dict (tree (walk_items (Str new_scope) d0))).
      repeat split; [assumption|]. apply list_elem_of_here.
  - (* a place below the root *)
    destruct Hreach as (Hnoref & key & child & Hi & Hreach).
    cbn [subnode] in Hsub. rewrite Hi in Hsub. cbn [snd] in Hsub.
    assert (IHchild :
      forall inner,
        raised (walk_items inner d0) = None ->
        exists s,
          scope_at inner (Dict child) p = Some s
          /\ (forall ref,
                str_ref d = Some ref ->
                exists absolute,
                  fixed_urljoin s ref = Ok absolute
                  /\ subnode (Dict (tree (walk_items inner d0))) (i :: p)
                     = Some (Dict (dict_set "$ref" (Str absolute) d)))
          /\ (str_ref d = None ->
              forall j,
                declared_id d = Some j ->
                exists new_scope k node',
                  fixed_urljoin s j = Ok new_scope
                  /\ normalize new_scope = Ok k
                  /\ subnode (Dict (tree (walk_items inner d0))) (i :: p) = Some node'
                  /\ (k, node') ∈ writes (walk_items inner d0))).
    { intros inner Hitems.
      destruct (walk_items_field inner d0 Hitems i key child Hi) as (Hc & Ht & Hw).
      rewrite Forall_lookup in IH. specialize (IH i (key, Dict child) Hi).
      destruct (IH inner p d Hc Hreach Hsub) as (s & Hs & Hrefs & Hids).
      exists s. split; [assumption|].
      cbn [subnode]. rewrite Ht. cbn [snd]. split.
      - exact Hrefs.
      - intros Hno j Hj.
        destruct (Hids Hno j Hj) as (new_scope & k & node' & Hj1 & Hj2 & Hj3 & Hj4).
        exists new_scope, k, node'. repeat split; try assumption.
        apply Hw. assumption. }
    rewrite walk_Dict in Hdone |- *. rewrite Hnoref in Hdone |- *.
    cbn [scope_at]. rewrite Hi. unfold scope_within. cbn [snd].
    destruct (declared_id d0) as [i0|].
    + destruct (fixed_urljoin scope i0) as [new_scope|e] eqn:Hjoin; [|discriminate Hdone].
      cbn [rbind] in Hdone |- *.
      destruct (normalize new_scope) as [key0|e] eqn:Hnorm; [|discriminate Hdone].
      cbn [rbind] in Hdone |- *. cbv zeta in Hdone |- *. simpl in Hdone |- *.
      destruct (IHchild (Str new_scope) Hdone) as (s & Hs & Hrefs & Hids).
      exists s. split; [assumption|]. split; [assumption|].
      intros Hno j Hj.
      destruct (Hids Hno j Hj) as (ns & k & node' & Hj1 & Hj2 & Hj3 & Hj4).
      exists ns, k, node'. repeat split; try assumption.
      apply list_elem_of_further. assumption.
    + cbv zeta in Hdone |- *. simpl in Hdone |- *.
      exact (IHchild scope Hdone).
Qed.

(** The writes of a walk with their places. *)
Lemma visited_before_shift (a b : list nat) :
  visited_before a b -> visited_before (shift_place a) (shift_place b).
Proof.
  destruct a as [|i a], b as [|j b]; cbn; try tauto.
  intros [Hlt|[-> Hab]]; [left; lia|right; split; [reflexivity|assumption]].
Qed.

Lemma placed_before_first (a b : list nat * (string * value)) :
  placed_before a b -> placed_before (place_in_first a) (place_in_first b).
Proof. unfold placed_before. cbn. intros Hab. right. split; [reflexivity|assumption]. Qed.

Lemma placed_before_rest (a b : list nat * (string * value)) :
  placed_before a b -> placed_before (place_in_rest a) (place_in_rest b).
Proof. unfold placed_before. cbn. apply visited_before_shift. Qed.

Lemma fmap_place_in_first (pw : list (list nat * (string * value))) :
  (place_in_first <$> pw).*2 = pw.*2.
Proof. rewrite <- list_fmap_compose. reflexivity. Qed.

Lemma fmap_place_in_rest (pw : list (list nat * (string * value))) :
  (place_in_rest <$> pw).*2 = pw.*2.
Proof. rewrite <- list_fmap_compose. reflexivity. Qed.

Lemma elem_of_place_in_first (q : list nat) (kn : string * value)
    (pw : list (list nat * (string * value))) :
  (q, kn) ∈ place_in_first <$> pw <-> exists q0, q = 0%nat :: q0 /\ (q0, kn) ∈ pw.
Proof.
  rewrite list_elem_of_fmap. split.
  - intros ([q0 kn0] & [= -> ->] & Hin). exists q0. split; [reflexivity|exact Hin].
  - intros (q0 & -> & Hin). exists (q0, kn). split; [reflexivity|exact Hin].
Qed.

Lemma elem_of_place_in_rest (q : list nat) (kn : string * value)
    (pw : list (list nat * (string * value))) :
  (q, kn) ∈ place_in_rest <$> pw <-> exists q0, q = shift_place q0 /\ (q0, kn) ∈ pw.
Proof.
  rewrite list_elem_of_fmap. split.
  - intros ([q0 kn0] & [= -> ->] & Hin). exists q0. split; [reflexivity|exact Hin].
  - intros (q0 & -> & Hin). exists (q0, kn). split; [reflexivity|exact Hin].
Qed.

(** The last write under a key, and what comes before and after it. *)
Lemma last_write_split (pw : list (list nat * (string * value))) (key : string) :
  (exists q node, (q, (key, node)) ∈ pw) ->
  exists before q stored after,
    pw = before ++ (q, (key, stored)) :: after
    /\ (forall a, a ∈ after -> a.2.1 <> key)
    /\ forall st, apply_writes pw.*2 st !! key = Some stored.
Proof.
  induction pw as [|[q' [k' n']] pw IH] using rev_ind; intros (q & node & Hin).
  - inversion Hin.
  - destruct (decide (k' = key)) as [->|Hne].
    + exists pw, q', n', []. split; [reflexivity|]. split; [intros a Ha; inversion Ha|].
      intros st. rewrite fmap_app. unfold apply_writes. rewrite foldl_app. cbn.
      apply lookup_insert_eq.
    + apply elem_of_app in Hin as [Hin|Hin].
      * destruct IH as (before & q0 & stored & after & -> & Hafter & Hstore).
        { exists q, node. exact Hin. }
        exists before, q0, stored, (after ++ [(q', (k', n'))]).
        split; [rewrite <- app_assoc; reflexivity|]. split.
        -- intros a Ha. apply elem_of_app in Ha as [Ha|Ha]; [apply Hafter; exact Ha|].
           apply list_elem_of_singleton in Ha. subst a. exact Hne.
        -- intros st. rewrite fmap_app. unfold apply_writes. rewrite foldl_app. cbn.
           rewrite lookup_insert_ne by exact Hne. apply Hstore.
      * apply list_elem_of_singleton in Hin. congruence.
Qed.

Lemma declares_at_below (scope inner : value) (d0 : list (string * value)) (i : nat)
    (k : string) (child : list (string * value)) (rest : list nat) (key : string) :
  str_ref d0 = None ->
  d0 !! i = Some (k, Dict child) ->
  scope_within scope d0 = Some inner ->
  declares_at inner (Dict child) rest key <-> declares_at scope (Dict d0) (i :: rest) key.
Proof.
  intros Hnoref Hi Hinner. unfold declares_at.
  cbn [reached subnode scope_at]. rewrite Hi, Hinner. cbn [snd]. split.
  - intros (Hreach & Hd). split; [|exact Hd].
    split; [exact Hnoref|]. exists k, child. split; [reflexivity|exact Hreach].
  - intros ((_ & k' & child' & [= <- <-] & Hreach) & Hd). split; assumption.
Qed.

Lemma declares_at_key (scope root : value) (p : list nat) (key key' : string) :
  declares_at scope root p key -> declares_at scope root p key' -> key = key'.
Proof.
  intros (_ & d & i & s & ns & Hd & _ & Hi & Hs & Hj & Hn)
         (_ & d' & i' & s' & ns' & Hd' & _ & Hi' & Hs' & Hj' & Hn').
  congruence.
Qed.

Lemma placed_item_writes_nil (scope : value) : placed_item_writes scope [] [].
Proof.
  split; [reflexivity|]. split; [constructor|]. split.
  - intros q key node Hin. inversion Hin.
  - intros _ i rest k child key Hi. discriminate Hi.
Qed.

Lemma placed_item_writes_skip (scope : value) (k0 : string) (x : value)
    (rest : list (string * value)) (pwr : list (list nat * (string * value))) :
  (forall c, x <> Dict c) ->
  placed_item_writes scope rest pwr ->
  placed_item_writes scope ((k0, x) :: rest) (place_in_rest <$> pwr).
Proof.
  intros Hx (H2 & Hsorted & Hsound & Hcomplete).
  assert (Hw : walk_items scope ((k0, x) :: rest)
               = mkWalked ((k0, x) :: tree (walk_items scope rest))
                          (writes (walk_items scope rest))
                          (raised (walk_items scope rest))).
  { destruct x; try reflexivity. exfalso. exact (Hx _ eq_refl). }
  unfold placed_item_writes. rewrite Hw. cbn [tree writes raised].
  split; [rewrite fmap_place_in_rest; exact H2|].
  split; [eapply StronglySorted_fmap; [exact placed_before_rest|exact Hsorted]|].
  split.
  - intros q key node Hin. apply elem_of_place_in_rest in Hin as (q0 & -> & Hin).
    destruct (Hsound _ _ _ Hin) as (i & r & k & child & -> & Hi & Hd & Ht & Hs).
    exists (S i), r, k, child.
    split; [reflexivity|]. split; [exact Hi|]. split; [exact Hd|].
    split; [exact Ht|exact Hs].
  - intros Hdone [|i] r k child key Hi Hd.
    + cbn in Hi. injection Hi as _ ->. exfalso. exact (Hx _ eq_refl).
    + destruct (Hcomplete Hdone i r k child key Hi Hd) as (node & Hin).
      exists node. apply elem_of_place_in_rest. exists (i :: r). split; [reflexivity|exact Hin].
Qed.

Lemma placed_item_writes_raise (scope : value) (k0 : string) (c : list (string * value))
    (rest : list (string * value)) (pwc : list (list nat * (string * value))) (e : exn) :
  raised (walk scope (Dict c)) = Some e ->
  placed_writes scope (Dict c) pwc ->
  placed_item_writes scope ((k0, Dict c) :: rest) (place_in_first <$> pwc).
Proof.
  intros Hraise (H2 & Hsorted & Hsound & _).
  unfold placed_item_writes. cbn [walk_items]. cbv zeta. rewrite Hraise.
  cbn [tree writes raised].
  split; [rewrite fmap_place_in_first; exact H2|].
  split; [eapply StronglySorted_fmap; [exact placed_before_first|exact Hsorted]|].
  split; [|discriminate].
  intros q key node Hin. apply elem_of_place_in_first in Hin as (q0 & -> & Hin).
  destruct (Hsound _ _ _ Hin) as (Hd & Hs).
  exists 0%nat, q0, k0, c.
  split; [reflexivity|]. split; [reflexivity|]. split; [exact Hd|].
  split; [reflexivity|exact Hs].
Qed.

Lemma placed_item_writes_cons (scope : value) (k0 : string) (c : list (string * value))
    (rest : list (string * value)) (pwc pwr : list (list nat * (string * value))) :
  raised (walk scope (Dict c)) = None ->
  placed_writes scope (Dict c) pwc ->
  placed_item_writes scope rest pwr ->
  placed_item_writes scope ((k0, Dict c) :: rest)
    ((place_in_first <$> pwc) ++ (place_in_rest <$> pwr)).
Proof.
  intros Hdone (Hc2 & Hcsorted & Hcsound & Hccomplete) (Hr2 & Hrsorted & Hrsound & Hrcomplete).
  unfold placed_item_writes. cbn [walk_items]. cbv zeta. rewrite Hdone.
  cbn [tree writes raised].
  split; [rewrite fmap_app, fmap_place_in_first, fmap_place_in_rest; congruence|].
  split.
  { apply StronglySorted_app_2.
    - intros [q1 kn1] [q2 kn2] Hin1 Hin2.
      apply elem_of_place_in_first in Hin1 as (q1' & -> & _).
      apply elem_of_place_in_rest in Hin2 as (q2' & -> & Hin2).
      destruct kn2 as [key node].
      destruct (Hrsound _ _ _ Hin2) as (i & r & _ & _ & -> & _).
      unfold placed_before. cbn. left. lia.
    - eapply StronglySorted_fmap; [exact placed_before_first|exact Hcsorted].
    - eapply StronglySorted_fmap; [exact placed_before_rest|exact Hrsorted]. }
  split.
  - intros q key node Hin. apply elem_of_app in Hin as [Hin|Hin].
    + apply elem_of_place_in_first in Hin as (q0 & -> & Hin).
      destruct (Hcsound _ _ _ Hin) as (Hd & Hs).
      exists 0%nat, q0, k0, c.
  split; [reflexivity|]. split; [reflexivity|]. split; [exact Hd|].
  split; [reflexivity|exact Hs].
    + apply elem_of_place_in_rest in Hin as (q0 & -> & Hin).
      destruct (Hrsound _ _ _ Hin) as (i & r & k & child & -> & Hi & Hd & Ht & Hs).
      exists (S i), r, k, child.
    split; [reflexivity|]. split; [exact Hi|]. split; [exact Hd|].
    split; [exact Ht|exact Hs].
  - intros Hrest [|i] r k child key Hi Hd.
    + cbn in Hi. injection Hi as <- <-.
      destruct (Hccomplete Hdone r key Hd) as (node & Hin).
      exists node. apply elem_of_app. left.
      apply elem_of_place_in_first. exists r. split; [reflexivity|exact Hin].
    + destruct (Hrcomplete Hrest i r k child key Hi Hd) as (node & Hin).
      exists node. apply elem_of_app. right.
      apply elem_of_place_in_rest. exists (i :: r). split; [reflexivity|exact Hin].
Qed.

Lemma walk_items_placed (items : list (string * value)) :
  Forall (fun kv => forall scope, exists pw, placed_writes scope kv.2 pw) items ->
  forall scope, exists pw, placed_item_writes scope items pw.
Proof.
  induction items as [|[k0 x] rest IH]; intros Hall scope.
  - exists []. apply placed_item_writes_nil.
  - apply Forall_cons in Hall as [Hx Hrest]. cbn [snd] in Hx.
    destruct (IH Hrest scope) as (pwr & Hpwr).
    destruct x as [| b | z | m e | s | l | c];
      try (exists (place_in_rest <$> pwr);
           apply placed_item_writes_skip; [discriminate|exact Hpwr]).
    destruct (Hx scope) as (pwc & Hpwc).
    destruct (raised (walk scope (Dict c))) as [e|] eqn:Hc.
    + exists (place_in_first <$> pwc). eapply placed_item_writes_raise; eassumption.
    + exists ((place_in_first <$> pwc) ++ (place_in_rest <$> pwr)).
      apply placed_item_writes_cons; assumption.
Qed.

Lemma placed_writes_none (scope root : value) :
  writes (walk scope root) = [] ->
  (raised (walk scope root) = None -> forall q key, ~ declares_at scope root q key) ->
  placed_writes scope root [].
Proof.
  intros Hw Hnone. split; [symmetry; exact Hw|]. split; [constructor|]. split.
  - intros q key node Hin. inversion Hin.
  - intros Hdone q key Hd. exfalso. exact (Hnone Hdone q key Hd).
Qed.

Lemma not_declares_at_leaf (scope root : value) (q : list nat) (key : string) :
  (forall d, root <> Dict d) -> ~ declares_at scope root q key.
Proof.
  intros Hroot (Hreach & d & i & s & ns & Hsub & _).
  destruct q as [|j q].
  - cbn in Hsub. injection Hsub as ->. exact (Hroot _ eq_refl).
  - destruct root; try exact Hreach. exact (Hroot _ eq_refl).
Qed.

(** The items of a map whose walk went below: the writes made below,
    placed in the map. *)
Lemma placed_items_in_map (scope inner : value) (d0 : list (string * value))
    (pwi : list (list nat * (string * value))) :
  str_ref d0 = None ->
  scope_within scope d0 = Some inner ->
  placed_item_writes inner d0 pwi ->
  (forall q key node,
     (q, (key, node)) ∈ pwi ->
     q <> []
     /\ declares_at scope (Dict d0) q key
     /\ subnode (Dict (tree (walk_items inner d0))) q = Some node)
  /\ (raised (walk_items inner d0) = None ->
      forall q key, q <> [] -> declares_at scope (Dict d0) q key ->
                    exists node, (q, (key, node)) ∈ pwi).
Proof.
  intros Hnoref Hinner (_ & _ & Hsound & Hcomplete). split.
  - intros q key node Hin.
    destruct (Hsound _ _ _ Hin) as (i & r & k & child & -> & Hi & Hd & Ht & Hs).
    split; [discriminate|]. split.
    + apply (declares_at_below scope inner d0 i k child r key Hnoref Hi Hinner). exact Hd.
    + cbn [subnode]. rewrite Ht. cbn [snd]. exact Hs.
  - intros Hdone [|i r] key Hq Hd; [congruence|].
    pose proof Hd as ((_ & k & child & Hi & _) & _).
    apply (declares_at_below scope inner d0 i k child r key Hnoref Hi Hinner) in Hd.
    exact (Hcomplete Hdone i r k child key Hi Hd).
Qed.

Lemma walk_placed (root : value) :
  forall scope, exists pw, placed_writes scope root pw.
Proof.
  induction root as [| b | z | m e | s | l _ | d0 IH] using value_nested_ind;
    intros scope;
    try (exists []; apply placed_writes_none;
         [reflexivity|intros _ q key; apply not_declares_at_leaf; discriminate]).
  pose proof (walk_items_placed d0 IH) as Hitems.
  destruct (str_ref d0) as [ref|] eqn:Href.
  { (* a reference: nothing is written, nothing declared counts *)
    exists []. apply placed_writes_none.
    - rewrite walk_Dict, Href. destruct (fixed_urljoin scope ref); reflexivity.
    - intros _ q key (Hreach & d & i & s & ns & Hsub & Hno & _).
      destruct q as [|j q].
      + cbn in Hsub. injection Hsub as <-. congruence.
      + destruct Hreach as (Hno' & _). congruence. }
  destruct (declared_id d0) as [i0|] eqn:Hid.
  - destruct (fixed_urljoin scope i0) as [new_scope|e] eqn:Hjoin.
    + destruct (normalize new_scope) as [key0|e] eqn:Hnorm.
      * destruct (Hitems (Str new_scope)) as (pwi & Hpwi).
        assert (Hinner : scope_within scope d0 = Some (Str new_scope)).
        { unfold scope_within. rewrite Hid, Hjoin. reflexivity. }
        destruct (placed_items_in_map scope (Str new_scope) d0 pwi Href Hinner Hpwi)
          as (Hsound & Hcomplete).
        destruct Hpwi as (H2 & Hsorted & _).
        assert (Hroot : declares_at scope (Dict d0) [] key0).
        { split; [exact I|]. exists d0, i0, scope, new_scope.
          split; [reflexivity|]. split; [exact Href|]. split; [exact Hid|].
          split; [reflexivity|]. split; [exact Hjoin|exact Hnorm]. }
        exists (([], (key0, Dict (tree (walk_items (Str new_scope) d0)))) :: pwi).
        unfold placed_writes. rewrite walk_Dict, Href, Hid, Hjoin. cbn [rbind].
        rewrite Hnorm. cbn [rbind]. cbv zeta. cbn [tree writes raised].
        split; [cbn; rewrite H2; reflexivity|].
        split.
        { constructor; [exact Hsorted|]. apply Forall_forall. intros [q [key node]] Hin.
          destruct (Hsound _ _ _ Hin) as (Hq & _).
          unfold placed_before. cbn. destruct q; [congruence|exact I]. }
        split.
        -- intros q key node Hin. apply elem_of_cons in Hin as [[= -> -> ->]|Hin].
           ++ split; [exact Hroot|reflexivity].
           ++ destruct (Hsound _ _ _ Hin) as (_ & Hd & Hs). split; assumption.
        -- intros Hdone q key Hd. destruct q as [|j q].
           ++ rewrite (declares_at_key _ _ _ _ _ Hd Hroot).
              eexists. apply list_elem_of_here.
           ++ destruct (Hcomplete Hdone (j :: q) key) as (node & Hin);
                [discriminate|exact Hd|].
              exists node. apply list_elem_of_further. exact Hin.
      * exists []. unfold placed_writes. rewrite walk_Dict, Href, Hid, Hjoin. cbn [rbind].
        rewrite Hnorm. cbn [rbind tree writes raised].
        split; [reflexivity|]. split; [constructor|]. split; [|discriminate].
        intros q key node Hin. inversion Hin.
    + exists []. unfold placed_writes. rewrite walk_Dict, Href, Hid, Hjoin.
      cbn [rbind tree writes raised].
      split; [reflexivity|]. split; [constructor|]. split; [|discriminate].
      intros q key node Hin. inversion Hin.
  - destruct (Hitems scope) as (pwi & Hpwi).
    assert (Hinner : scope_within scope d0 = Some scope).
    { unfold scope_within. rewrite Hid. reflexivity. }
    destruct (placed_items_in_map scope scope d0 pwi Href Hinner Hpwi)
      as (Hsound & Hcomplete).
    destruct Hpwi as (H2 & Hsorted & _).
    exists pwi. unfold placed_writes. rewrite walk_Dict, Href, Hid. cbv zeta.
    cbn [tree writes raised].
    split; [exact H2|]. split; [exact Hsorted|]. split.
    + intros q key node Hin. destruct (Hsound _ _ _ Hin) as (_ & Hd & Hs).
      split; assumption.
    + intros Hdone q key Hd. destruct q as [|j q].
      * destruct Hd as (_ & d & i & s & ns & Hsub & _ & Hi & _).
        cbn in Hsub. injection Hsub as <-. congruence.
      * apply (Hcomplete Hdone (j :: q) key); [discriminate|exact Hd].
Qed.

(** The store after a walk that completed holds, under the key of a
    place that declares an identifier, the node at the place visited
    last among those that declare that key. *)
Lemma walk_store_last (scope root : value) (p : list nat) (key : string) :
  raised (walk scope root) = None ->
  declares_at scope root p key ->
  exists q stored,
    declares_at scope root q key
    /\ (q = p \/ visited_before p q)
    /\ (forall q', declares_at scope root q' key -> q' = q \/ visited_before q' q)
    /\ subnode (tree (walk scope root)) q = Some stored
    /\ (key, stored) ∈ writes (walk scope root)
    /\ forall st, apply_writes (writes (walk scope root)) st !! key = Some stored.
Proof.
  intros Hdone Hp.
  destruct (walk_placed root scope) as (pw & H2 & Hsorted & Hsound & Hcomplete).
  specialize (Hcomplete Hdone).
  destruct (last_write_split pw key) as (before & q & stored & after & Hpw & Hafter & Hstore).
  { destruct (Hcomplete p key Hp) as (node & Hin). exists p, node. exact Hin. }
  assert (Hq : (q, (key, stored)) ∈ pw).
  { rewrite Hpw. apply elem_of_app. right. apply list_elem_of_here. }
  destruct (Hsound _ _ _ Hq) as (Hdq & Hsq).
  assert (Hlast : forall q', declares_at scope root q' key -> q' = q \/ visited_before q' q).
  { intros q' Hd'. destruct (Hcomplete q' key Hd') as (node & Hin).
    rewrite Hpw in Hin, Hsorted.
    apply elem_of_app in Hin as [Hin|Hin].
    - right.
      exact (StronglySorted_app_1_elem_of _ _ _ _ _ Hsorted Hin (list_elem_of_here _ _)).
    - apply elem_of_cons in Hin as [[= -> _]|Hin]; [left; reflexivity|].
      exfalso. exact (Hafter _ Hin eq_refl). }
  exists q, stored. split; [exact Hdq|]. split.
  { destruct (Hlast p Hp) as [->|Hb]; [left; reflexivity|right; exact Hb]. }
  split; [exact Hlast|]. split; [exact Hsq|]. split.
  - rewrite <- H2. apply list_elem_of_fmap. exists (q, (key, stored)).
    split; [reflexivity|exact Hq].
  - rewrite <- H2. exact Hstore.
Qed.

(** C2, as the code has it.  After a walk that completed, at every
    place the walk reaches: where the map has a text [$ref], that
    field is the join of the old reference against the scope current
    at the place and the map is otherwise as before; where it has
    none and declares a text [$id] or [id], the node as the walk left
    it was written to the store under the normalized join of the
    identifier against the scope.  What the store then holds under
    that key is the node, as the walk left it, at the place visited
    last among the places that declare that key: it is a place that
    declares the key, it is this place or one visited after it, and
    every place that declares the key is it or is visited before it.
    So the store holds the node of this place itself when no place
    visited later declares the same key.  The walk reaches the root
    and, from a map without a text [$ref], its fields that are maps,
    a map before its fields and the fields in their order; it does
    not enter sequences. *)
Theorem walk_rewrites_reached (scope root : value) (p : list nat)
    (d : list (string * value)) :
  raised (walk scope root) = None ->
  reached root p ->
  subnode root p = Some (Dict d) ->
  exists s,
    scope_at scope root p = Some s
    /\ (forall ref,
          str_ref d = Some ref ->
          exists absolute,
            fixed_urljoin s ref = Ok absolute
            /\ subnode (tree (walk scope root)) p
               = Some (Dict (dict_set "$ref" (Str absolute) d)))
    /\ (str_ref d = None ->
        forall i,
          declared_id d = Some i ->
          exists new_scope key node',
            fixed_urljoin s i = Ok new_scope
            /\ normalize new_scope = Ok key
            /\ subnode (tree (walk scope root)) p = Some node'
            /\ (key, node') ∈ writes (walk scope root)
            /\ (exists q stored,
                  declares_at scope root q key
                  /\ (q = p \/ visited_before p q)
                  /\ (forall q', declares_at scope root q' key ->
                                 q' = q \/ visited_before q' q)
                  /\ subnode (tree (walk scope root)) q = Some stored
                  /\ (key, stored) ∈ writes (walk scope root)
                  /\ forall st,
                       apply_writes (writes (walk scope root)) st !! key = Some stored)
            /\ ((forall q', declares_at scope root q' key -> ~ visited_before p q') ->
                forall st,
                  apply_writes (writes (walk scope root)) st !! key = Some node')).
Proof.
  intros Hdone Hreach Hsub.
  destruct (walk_reached_aux root scope p d Hdone Hreach Hsub) as (s & Hs & Hrefs & Hids).
  exists s. split; [assumption|]. split; [assumption|].
  intros Hno i Hi.
  destruct (Hids Hno i Hi) as (ns & k & node' & H1 & H2 & H3 & H4).
  exists ns, k, node'.
  split; [exact H1|]. split; [exact H2|]. split; [exact H3|]. split; [exact H4|].
  assert (Hp : declares_at scope root p k).
  { split; [exact Hreach|]. exists d, i, s, ns.
    split; [exact Hsub|]. split; [exact Hno|]. split; [exact Hi|].
    split; [exact Hs|]. split; [exact H1|exact H2]. }
  destruct (walk_store_last scope root p k Hdone Hp)
    as (q & stored & Hdq & Hafter & Hlast & Hsq & Hin & Hstore).
  split.
  - exists q, stored.
    split; [exact Hdq|]. split; [exact Hafter|]. split; [exact Hlast|].
    split; [exact Hsq|]. split; [exact Hin|exact Hstore].
  - intros Hnone st. destruct Hafter as [->|Hlater].
    + rewrite Hstore. congruence.
    + exfalso. exact (Hnone q Hdq Hlater).
Qed.

End walking.

(** An instance of C2: in [nested_schema], the reference below the
    node that declares [sub/b.json] is joined against that scope, and
    the node is stored under it. *)
Lemma walk_rewrites_reached_witness :
  subnode (tree (@walk cpython (Str "") nested_schema)) [1; 2; 1]%nat
  = Some (Dict [("$ref", Str "http://example.com/sub/c.json")])
  /\ exists stored,
      apply_writes (writes (@walk cpython (Str "") nested_schema)) ∅
        !! "http://example.com/sub/b.json" = Some stored.
Proof.
  assert (Hreach : forall rest, (rest = [] \/ rest = [1%nat]) ->
                     reached nested_schema ([1; 2]%nat ++ rest)).
  { intros rest Hrest. cbn. split; [reflexivity|].
    eexists _, _. split; [reflexivity|]. split; [reflexivity|].
    eexists _, _. split; [reflexivity|].
    destruct Hrest as [->| ->]; [exact I|].
    split; [reflexivity|]. eexists _, _. split; [reflexivity|exact I]. }
  split.
  - destruct (@walk_rewrites_reached cpython (Str "") nested_schema [1; 2; 1]%nat
                [("$ref", Str "c.json")] eq_refl (Hreach [1%nat] (or_intror eq_refl)) eq_refl)
      as (s & Hs & Hrefs & _).
    vm_compute in Hs. injection Hs as <-.
    destruct (Hrefs "c.json" eq_refl) as (absolute & Hjoin & Hsub).
    vm_compute in Hjoin. injection Hjoin as <-. exact Hsub.
  - destruct (@walk_rewrites_reached cpython (Str "") nested_schema [1; 2]%nat
                [("id", Str "sub/b.json"); ("items", Dict [("$ref", Str "c.json")])]
                eq_refl (Hreach [] (or_introl eq_refl)) eq_refl)
      as (s & Hs & _ & Hids).
    vm_compute in Hs. injection Hs as <-.
    destruct (Hids eq_refl "sub/b.json" eq_refl)
      as (new_scope & key & node' & Hjoin & Hnorm & _ & _ & Hlast & _).
    vm_compute in Hjoin. injection Hjoin as <-.
    vm_compute in Hnorm. injection Hnorm as <-.
    destruct Hlast as (q & stored & _ & _ & _ & _ & _ & Hstored).
    exists stored. exact (Hstored ∅).
Defined.

(** C2 as stated fails: a reference inside a sequence is left as it
    was, and a node that declares an identifier inside a sequence is
    not stored. *)
Lemma walk_skips_sequences :
  let scope := Str "http://example.com/root.json" in
  (raised (@walk cpython scope ref_in_sequence) = None
   /\ ~ @every_ref_rewritten cpython scope ref_in_sequence
          (tree (@walk cpython scope ref_in_sequence)))
  /\ (raised (@walk cpython scope id_in_sequence) = None
      /\ ~ @every_id_stored cpython scope id_in_sequence
             (apply_writes (writes (@walk cpython scope id_in_sequence)) ∅)).
Proof.
  cbv zeta. split; (split; [reflexivity|]).
  - intros Hall.
    destruct (Hall [0; 0]%nat [("$ref", Str "item.json")] "item.json"
                (Str "http://example.com/root.json") eq_refl eq_refl eq_refl)
      as (absolute & d' & Hjoin & Hsub & Hget).
    vm_compute in Hjoin. injection Hjoin as <-.
    vm_compute in Hsub. injection Hsub as <-.
    discriminate Hget.
  - intros Hall.
    destruct (Hall [0; 0]%nat [("$id", Str "item.json")] "item.json"
                (Str "http://example.com/root.json") eq_refl eq_refl eq_refl)
      as (new_scope & key & Hjoin & Hnorm & Hstored).
    change (apply_writes (writes (@walk cpython (Str "http://example.com/root.json")
                                    id_in_sequence)) ∅) with (∅ : gmap string value)
      in Hstored.
    rewrite lookup_empty in Hstored. destruct Hstored as [? [=]].
Qed.

(** Two nodes that declare the same identifier: the store holds the
    one visited later. *)
Lemma walk_same_id_last_wins :
  raised (@walk cpython (Str "") twice_declared) = None
  /\ visited_before [0%nat] [1%nat]
  /\ apply_writes (writes (@walk cpython (Str "") twice_declared)) ∅
       !! "http://example.com/s.json"
     = Some (Dict [("$id", Str "http://example.com/s.json"); ("title", Str "second")]).
Proof.
  split; [vm_compute; reflexivity|]. split; [left; lia|].
  vm_compute. reflexivity.
Qed.

(** ** The default store *)
Section sharing.
Context `{urlparse.Lib}.

Lemma init_store (b s : value) (st : option loc) (c : bool) (hs : handler_map)
    (h h' : heap) (r : RefResolver) :
  __init__ b s st c hs h = (Ok r, h') ->
  store r = default default_store st
  /\ h' = <[default default_store st :=
             apply_writes (writes (walk b s)) (h !!! default default_store st)]> h.
Proof.
  unfold __init__. destruct (raised (walk b s)); [discriminate|].
  intros [= <- <-]. split; reflexivity.
Qed.

(** C9.  Two resolvers built without a [store] argument hold the
    same store object, the one of the default argument: whatever the
    heap, each reads in its store what the other reads; after both are
    built, that store holds the writes of the first walk and then
    those of the second; and a document written to the store of one,
    as [resolving] does with a fetched document, is read under the
    same URI by the other. *)
Theorem default_store_shared (b1 s1 b2 s2 : value) (c1 c2 : bool)
    (hs1 hs2 : handler_map) (h h1 h2 : heap) (r1 r2 : RefResolver) :
  __init__ b1 s1 None c1 hs1 h = (Ok r1, h1) ->
  __init__ b2 s2 None c2 hs2 h1 = (Ok r2, h2) ->
  store r1 = default_store
  /\ store r2 = store r1
  /\ (forall h', store_of r2 h' = store_of r1 h')
  /\ store_of r2 h2
     = apply_writes (writes (walk b2 s2))
         (apply_writes (writes (walk b1 s1)) (h !!! default_store))
  /\ (forall h' uri doc,
        store_of r2 (store_write (store r1) uri doc h') !! uri = Some doc)
  /\ (forall h' uri doc,
        store_of r1 (store_write (store r2) uri doc h') !! uri = Some doc).
Proof.
  intros Hinit1 Hinit2.
  apply init_store in Hinit1 as [Hst1 ->]. apply init_store in Hinit2 as [Hst2 ->].
  cbn [default] in *.
  assert (Hwrite : forall (r r' : RefResolver) h' uri doc,
             store r = default_store -> store r' = default_store ->
             store_of r (store_write (store r') uri doc h') !! uri = Some doc).
  { intros r r' h' uri doc Hr Hr'. unfold store_of, store_write. rewrite Hr, Hr'.
    rewrite lookup_total_insert_eq. apply lookup_insert_eq. }
  split; [assumption|]. split; [congruence|].
  split; [intros h'; unfold store_of; congruence|].
  split; [|split; intros; apply Hwrite; assumption].
  unfold store_of. rewrite Hst2. rewrite !lookup_total_insert_eq. reflexivity.
Qed.

(** Two resolvers given different store objects do not see each
    other's writes. *)
Lemma explicit_stores_separate (r1 r2 : RefResolver) (h : heap) (uri : string)
    (doc : value) :
  store r1 <> store r2 ->
  store_of r2 (store_write (store r1) uri doc h) = store_of r2 h.
Proof.
  intros Hne. unfold store_of, store_write.
  apply lookup_total_insert_ne. assumption.
Qed.

End sharing.

(** An instance of C9: a resolver for [nested_schema] and one for the
    schema [true], both built without a [store] argument.  The second
    finds in its store what the walk of the first wrote there. *)
Lemma default_store_shared_witness :
  let r1 := mkResolver (Str "") (Str "") (tree (@walk cpython (Str "") nested_schema))
                       default_store true mem_handlers ∅ ∅ in
  let h1 : heap :=
    <[default_store := apply_writes (writes (@walk cpython (Str "") nested_schema)) ∅]> ∅ in
  let r2 := mkResolver (Str "") (Str "") (Bool true) default_store false (fun _ => None) ∅ ∅ in
  let h2 : heap := <[default_store := h1 !!! default_store]> h1 in
  @__init__ cpython (Str "") nested_schema None true mem_handlers ∅ = (Ok r1, h1)
  /\ @__init__ cpython (Str "") (Bool true) None false (fun _ => None) h1 = (Ok r2, h2)
  /\ store r2 = store r1
  /\ is_Some (store_of r2 h2 !! "http://example.com/sub/b.json").
Proof.
  intros r1 h1 r2 h2.
  assert (Hinit1 : @__init__ cpython (Str "") nested_schema None true mem_handlers ∅
                   = (Ok r1, h1)) by reflexivity.
  assert (Hinit2 : @__init__ cpython (Str "") (Bool true) None false (fun _ => None) h1
                   = (Ok r2, h2)) by reflexivity.
  destruct (@default_store_shared cpython _ _ _ _ _ _ _ _ _ _ _ _ _ Hinit1 Hinit2)
    as (_ & Hsame & _ & Hboth & _).
  split; [exact Hinit1|]. split; [exact Hinit2|]. split; [exact Hsame|].
  rewrite Hboth. vm_compute. eexists. reflexivity.
Defined.

(** A document fetched and cached through one resolver is found by
    another that holds the same store, though that one has no handler
    to fetch it with. *)
Lemma cached_document_shared :
  let doc := Dict [("title", Str "mem://docs/a.json"); ("items", List [Int 7])] in
  let other :=
    mkResolver (Str "") (Str "") (Bool true) default_store true (fun _ => None) ∅ ∅ in
  forall h',
    (@resolving_document cpython offline "mem://docs/a.json" (root_resolver true) ∅).2 = h' ->
    @resolving_document cpython offline "mem://docs/a.json" other ∅
    = (Raise (OtherError "URLError"), other, ∅)
    /\ @resolving_document cpython offline "mem://docs/a.json" other h'
       = (Ok ("mem://docs/a.json", "", doc), other, h').
Proof. intros doc other h' <-. vm_compute. split; reflexivity. Qed.

(** ** The scheme of a join under CPython's [urllib.parse] *)

Lemma startswith_app_both (a b c : string) :
  PyStr.startswith (a +:+ b) (a +:+ c) = PyStr.startswith b c.
Proof.
  induction a as [|x a IH]; [reflexivity|].
  change (PyStr.startswith (String x (a +:+ b)) (String x (a +:+ c)) = PyStr.startswith b c).
  cbn [PyStr.startswith]. rewrite Ascii.eqb_refl. exact IH.
Qed.

Lemma startswith_app_r (p u t : string) :
  PyStr.startswith p u = true -> PyStr.startswith p (u +:+ t) = true.
Proof.
  revert u. induction p as [|x p IH]; intros u Hpu; [reflexivity|].
  destruct u as [|y u]; [discriminate Hpu|].
  change (PyStr.startswith (String x p) (String y (u +:+ t)) = true).
  cbn [PyStr.startswith] in Hpu |- *.
  destruct (Ascii.eqb x y); [|discriminate Hpu]. apply IH. exact Hpu.
Qed.

Lemma urlunsplit_starts_with_scheme (parts : urlparse.SplitResult) :
  urlparse.scheme parts <> "" ->
  PyStr.startswith (urlparse.scheme parts +:+ ":") (PyUrllib.urlunsplit parts) = true.
Proof.
  intros Hsch. unfold PyUrllib.urlunsplit.
  destruct (String.eqb_spec (urlparse.scheme parts) "") as [|_]; [contradiction|].
  set (url := if _ || _ then _ else urlparse.path parts).
  assert (Hhead : PyStr.startswith (urlparse.scheme parts +:+ ":")
                    (urlparse.scheme parts +:+ ":" +:+ url) = true).
  { rewrite startswith_app_both. cbn [PyStr.startswith String.append].
    reflexivity. }
  destruct (String.eqb (urlparse.query parts) ""), (String.eqb (urlparse.fragment parts) "");
    first [ exact Hhead
          | apply startswith_app_r; exact Hhead
          | do 2 apply startswith_app_r; exact Hhead ].
Qed.

(** With a base whose scheme is neither [http] nor [https], a reference
    that carries no scheme is joined into a URI under the scheme of the
    base. *)
Lemma fixed_urljoin_keeps_scheme (base ref u : string) (parts0 parts1 : urlparse.SplitResult) :
  PyUrllib.urlsplit base = Ok parts0 ->
  urlparse.scheme parts0 ∉ ["http"; "https"] ->
  urlparse.scheme parts0 <> "" ->
  PyUrllib.urlsplit ref = Ok parts1 ->
  urlparse.scheme parts1 = "" ->
  @fixed_urljoin cpython (Str base) ref = Ok u ->
  PyStr.startswith (urlparse.scheme parts0 +:+ ":") u = true.
Proof.
  intros Hsplit0 Hother Hsch Hsplit1 Hnone.
  unfold fixed_urljoin, fixed_urljoin_str.
  change (@urlparse.urlsplit cpython) with PyUrllib.urlsplit.
  change (@urlparse.urlunsplit cpython) with PyUrllib.urlunsplit.
  rewrite Hsplit0. cbn [rbind].
  rewrite bool_decide_eq_false_2 by assumption.
  rewrite Hsplit1. cbn [rbind]. rewrite Hnone. cbn [String.eqb negb].
  destruct (urlparse.urljoin _ ref) as [joined|e]; [|discriminate].
  cbn [rbind]. destruct (PyUrllib.urlsplit joined) as [jp|e]; [|discriminate].
  cbn [rbind]. intros [= <-].
  apply (urlunsplit_starts_with_scheme
           (urlparse.with_scheme (urlparse.scheme parts0) jp)).
  exact Hsch.
Qed.

(** * Further properties *)

(** ** [resolve_path] *)

Lemma dict_get_lookup (k : string) (d : list (string * value)) (v : value) :
  dict_get k d = Some v -> exists i, d !! i = Some (k, v).
Proof.
  induction d as [|[k' v'] d IH]; cbn [dict_get]; [discriminate|].
  destruct (String.eqb_spec k' k) as [->|_].
  - intros [= ->]. exists 0%nat. reflexivity.
  - intros Hget. destruct (IH Hget) as [i Hi]. exists (S i). exact Hi.
Qed.

Lemma list_getitem_lookup (l : list value) (i : Z) (v : value) :
  list_getitem l i = Ok v -> exists j, l !! j = Some v.
Proof.
  unfold list_getitem. destruct (_ && _); [|discriminate].
  destruct (l !! _) as [x|] eqn:Hl; [|discriminate].
  intros [= ->]. eexists. exact Hl.
Qed.

Section pointer_more.
Context `{urlparse.Lib}.

Lemma resolve_parts_subnode (parts : list string) :
  forall schema v,
    resolve_parts schema parts = Ok v ->
    exists p, length p = length parts /\ subnode schema p = Some v.
Proof.
  induction parts as [|part rest IH]; intros schema v; cbn [resolve_parts].
  - intros [= ->]. exists []. split; reflexivity.
  - destruct schema as [| | | | s | l | d]; try discriminate.
    + destruct (PyStr.contains _ s); discriminate.
    + destruct (PyStr.int _) as [i|]; [|discriminate].
      destruct (list_getitem l i) as [item|e] eqn:Hitem; [|discriminate].
      cbn [rbind]. intros Hrest.
      destruct (list_getitem_lookup _ _ _ Hitem) as [j Hj].
      destruct (IH item v Hrest) as (p & Hlen & Hp).
      exists (j :: p). split; [cbn; congruence|].
      cbn [subnode]. rewrite Hj. exact Hp.
    + destruct (dict_get _ d) as [item|] eqn:Hitem; [|discriminate].
      intros Hrest.
      destruct (dict_get_lookup _ _ _ Hitem) as [j Hj].
      destruct (IH item v Hrest) as (p & Hlen & Hp).
      exists (j :: p). split; [cbn; congruence|].
      cbn [subnode]. rewrite Hj. exact Hp.
Qed.

(** X1.  What [resolve_path] answers with is a node of the schema it
    was given: it sits at a place of the tree that is one step down
    for each token of the fragment, so as deep as the fragment has
    tokens.  No value is made up. *)
Theorem resolve_path_answers_node (schema : value) (fragment : string) (v : value) :
  resolve_path schema fragment = Ok v ->
  exists p, length p = length (pointer_tokens fragment)
            /\ subnode schema p = Some v.
Proof.
  unfold resolve_path, pointer_tokens. cbv zeta. intros Hres.
  destruct (resolve_parts_subnode _ _ _ Hres) as (p & Hlen & Hp).
  exists p. split; [|exact Hp].
  rewrite Hlen. destruct (String.eqb _ ""); [reflexivity|].
  symmetry. apply length_fmap.
Qed.

(** X2.  On a sequence of [n] elements, a token that [int] reads as [i]
    selects element [i] when [0 <= i < n] and element [n + i] when
    [-n <= i < 0]; any other [i] raises [IndexError], whatever tokens
    follow. *)
Theorem resolve_parts_index_bounds (l : list value) (token : string) (i : Z)
    (rest : list string) :
  PyStr.int (rfc6901_unescape token) = Some i ->
  let n := Z.of_nat (length l) in
  (0 <= i < n ->
     exists item, l !! Z.to_nat i = Some item
                  /\ resolve_parts (List l) (token :: rest) = resolve_parts item rest)
  /\ (- n <= i < 0 ->
      exists item, l !! Z.to_nat (n + i) = Some item
                   /\ resolve_parts (List l) (token :: rest) = resolve_parts item rest)
  /\ (i < - n \/ n <= i ->
      resolve_parts (List l) (token :: rest) = Raise IndexError).
Proof.
  intros Hint n. cbn [resolve_parts].
  rewrite unescape_one_pass, Hint. unfold list_getitem. fold n.
  split; [|split].
  - intros Hi. destruct (Z.ltb_spec i 0); [lia|].
    destruct (Z.leb_spec 0 i); [|lia]. destruct (Z.ltb_spec i n); [|lia].
    cbn [andb]. destruct (l !! Z.to_nat i) as [item|] eqn:Hl.
    + exists item. split; reflexivity.
    + apply lookup_ge_None in Hl. lia.
  - intros Hi. destruct (Z.ltb_spec i 0); [|lia].
    destruct (Z.leb_spec 0 (i + n)); [|lia]. destruct (Z.ltb_spec (i + n) n); [|lia].
    cbn [andb]. replace (n + i) with (i + n) by lia.
    destruct (l !! Z.to_nat (i + n)) as [item|] eqn:Hl.
    + exists item. split; reflexivity.
    + apply lookup_ge_None in Hl. lia.
  - intros Hi. destruct (Z.ltb_spec i 0).
    + destruct (Z.leb_spec 0 (i + n)); [|reflexivity].
      destruct (Z.ltb_spec (i + n) n); [|reflexivity]. lia.
    + destruct (Z.leb_spec 0 i); [|reflexivity].
      destruct (Z.ltb_spec i n); [|reflexivity]. lia.
Qed.

(** X3.  Following the tokens [a ++ b] is following [a] and then, from
    the node reached, [b]; an exception raised on the way through [a]
    is the exception of the whole. *)
Theorem resolve_parts_app (a b : list string) (schema : value) :
  resolve_parts schema (a ++ b)
  = (let* v := resolve_parts schema a in resolve_parts v b).
Proof.
  revert schema. induction a as [|part a IH]; intros schema; [reflexivity|].
  cbn [app resolve_parts].
  destruct schema as [| | | | s | l | d]; try reflexivity.
  - destruct (PyStr.contains _ s); reflexivity.
  - destruct (PyStr.int _) as [i|]; [|reflexivity].
    destruct (list_getitem l i) as [item|e]; [|reflexivity].
    cbn [rbind]. apply IH.
  - destruct (dict_get _ d) as [item|]; [|reflexivity]. apply IH.
Qed.

Lemma lstrip_all (chars s : string) :
  PyStr.all_chars (fun c => PyStr.mem c chars) s = true ->
  PyStr.lstrip chars s = "".
Proof.
  induction s as [|c t IH]; [reflexivity|].
  cbn [PyStr.all_chars PyStr.lstrip]. intros Hall.
  apply andb_true_iff in Hall as [Hc Ht]. rewrite Hc. apply IH. exact Ht.
Qed.

(** X4.  A fragment made of slashes only answers with the schema
    itself, as the empty fragment does: no token is looked up, not even
    the empty key. *)
Theorem resolve_path_only_slashes (schema : value) (fragment : string) :
  PyStr.all_chars (fun c => PyStr.mem c "/") fragment = true ->
  resolve_path schema fragment = Ok schema.
Proof.
  intros Hall. unfold resolve_path. rewrite (lstrip_all "/" fragment Hall). reflexivity.
Qed.

End pointer_more.

(** ** [walk] and [__init__] *)

Lemma only_refs_differ_Dict (d d' : list (string * value)) :
  only_refs_differ (Dict d) (Dict d') = only_refs_differ_items d d'.
Proof. reflexivity. Qed.

Lemma only_refs_differ_refl (v : value) : only_refs_differ v v.
Proof.
  induction v as [| b | z | m e | s | l _ | d IH] using value_nested_ind;
    try reflexivity.
  rewrite only_refs_differ_Dict.
  induction IH as [|[k x] r Hx _ IHr]; cbn [only_refs_differ_items]; [exact I|].
  split; [reflexivity|]. split; [left; exact Hx|exact IHr].
Qed.

Lemma only_refs_differ_items_refl (d : list (string * value)) :
  only_refs_differ_items d d.
Proof. rewrite <- only_refs_differ_Dict. apply only_refs_differ_refl. Qed.

Lemma dict_set_ref_differs (d : list (string * value)) (ref absolute : string) :
  dict_get "$ref" d = Some (Str ref) ->
  only_refs_differ_items d (dict_set "$ref" (Str absolute) d).
Proof.
  induction d as [|[k x] r IH]; cbn [dict_get dict_set]; [discriminate|].
  destruct (String.eqb_spec k "$ref") as [->|Hne].
  - intros [= ->]. cbn [only_refs_differ_items].
    split; [reflexivity|]. split; [|apply only_refs_differ_items_refl].
    right. split; [reflexivity|]. exists ref, absolute. split; reflexivity.
  - intros Hget. cbn [only_refs_differ_items].
    split; [reflexivity|]. split; [left; apply only_refs_differ_refl|].
    apply IH. exact Hget.
Qed.

Section walking_more.
Context `{urlparse.Lib}.

#[local] Arguments walk : simpl never.

Lemma walk_items_only_refs (scope : value) (items : list (string * value)) :
  Forall (fun kv => forall sc, only_refs_differ kv.2 (tree (walk sc kv.2))) items ->
  only_refs_differ_items items (tree (walk_items scope items)).
Proof.
  induction 1 as [|[k x] r Hx _ IHr]; [exact I|].
  cbn [walk_items]. cbn [snd] in Hx.
  destruct x as [| b | z | m e | s | l | d]; cbv zeta;
    try (cbn [tree only_refs_differ_items];
         split; [reflexivity|]; split; [left; apply only_refs_differ_refl|exact IHr]).
  destruct (raised (walk scope (Dict d))); cbn [tree only_refs_differ_items].
  - split; [reflexivity|]. split; [left; apply Hx|apply only_refs_differ_items_refl].
  - split; [reflexivity|]. split; [left; apply Hx|exact IHr].
Qed.

(** X5.  Whether it completes or raises, a walk leaves a tree that
    differs from the one it was given at most in the text held under
    [$ref] keys: no key is added, removed or moved, and no other value
    is changed. *)
Theorem walk_only_refs_differ (scope node : value) :
  only_refs_differ node (tree (walk scope node)).
Proof.
  revert scope.
  induction node as [| b | z | m e | s | l _ | d IH] using value_nested_ind;
    intros scope; try reflexivity.
  rewrite walk_Dict.
  destruct (str_ref d) as [ref|] eqn:Href.
  - destruct (fixed_urljoin scope ref); cbn [tree]; [|apply only_refs_differ_refl].
    rewrite only_refs_differ_Dict. apply (dict_set_ref_differs d ref).
    unfold str_ref in Href. destruct (dict_get "$ref" d) as [[]|]; congruence.
  - destruct (declared_id d) as [i|].
    + destruct (let* new_scope := _ in _) as [[new_scope key]|e];
        cbn [tree]; [|apply only_refs_differ_refl].
      rewrite only_refs_differ_Dict. apply walk_items_only_refs. exact IH.
    + cbn [tree]. rewrite only_refs_differ_Dict. apply walk_items_only_refs. exact IH.
Qed.

Lemma dict_set_other (k k' : string) (v : value) (d : list (string * value)) :
  k' <> k -> dict_get k' (dict_set k v d) = dict_get k' d.
Proof.
  intros Hne. induction d as [|[k0 v0] d IH]; cbn [dict_set dict_get].
  - destruct (String.eqb_spec k k'); [congruence|reflexivity].
  - destruct (String.eqb_spec k0 k) as [->|Hk0]; cbn [dict_get].
    + destruct (String.eqb_spec k k'); [congruence|reflexivity].
    + destruct (String.eqb k0 k'); [reflexivity|exact IH].
Qed.

Lemma dict_set_same (k : string) (v : value) (d : list (string * value)) :
  dict_get k (dict_set k v d) = Some v.
Proof.
  induction d as [|[k0 v0] d IH]; cbn [dict_set dict_get].
  - rewrite String.eqb_refl. reflexivity.
  - destruct (String.eqb_spec k0 k) as [->|Hk0]; cbn [dict_get].
    + rewrite String.eqb_refl. reflexivity.
    + destruct (String.eqb_spec k0 k); [contradiction|exact IH].
Qed.

(** X6.  A map with a text [$ref] is where the walk stops: when the
    join succeeds its [$ref] becomes the joined URI, every other field
    reads as before, and nothing is written to the store, even when
    the map or a node below it declares an identifier. *)
Theorem walk_ref_node_is_leaf (scope : value) (d : list (string * value))
    (ref absolute : string) :
  str_ref d = Some ref ->
  fixed_urljoin scope ref = Ok absolute ->
  exists d',
    walk scope (Dict d) = mkWalked (Dict d') [] None
    /\ dict_get "$ref" d' = Some (Str absolute)
    /\ (forall k, k <> "$ref" -> dict_get k d' = dict_get k d)
    /\ d'.*1 = d.*1.
Proof.
  intros Href Hjoin. rewrite walk_Dict, Href, Hjoin.
  exists (dict_set "$ref" (Str absolute) d). split; [reflexivity|].
  split; [apply dict_set_same|]. split; [intros k Hk; apply dict_set_other; exact Hk|].
  unfold str_ref in Href.
  clear Hjoin. induction d as [|[k0 v0] d IH]; cbn [dict_get dict_set] in Href |- *;
    [discriminate|].
  destruct (String.eqb k0 "$ref"); [reflexivity|].
  cbn [fmap list_fmap fst]. f_equal. apply IH. exact Href.
Qed.

Lemma walk_items_write (scope : value) (items : list (string * value))
    (w : string * value) :
  w ∈ writes (walk_items scope items) ->
  exists i key child,
    items !! i = Some (key, Dict child)
    /\ w ∈ writes (walk scope (Dict child))
    /\ tree (walk_items scope items) !! i = Some (key, tree (walk scope (Dict child))).
Proof.
  induction items as [|[k x] r IH]; cbn [walk_items].
  - cbn. intros Hin. inversion Hin.
  - assert (Hskip : w ∈ writes (walk_items scope r) ->
              forall x', exists i key child,
                ((k, x) :: r) !! i = Some (key, Dict child)
                /\ w ∈ writes (walk scope (Dict child))
                /\ ((k, x') :: tree (walk_items scope r)) !! i
                   = Some (key, tree (walk scope (Dict child)))).
    { intros Hin x'. destruct (IH Hin) as (i & key & child & Hi & Hw & Ht).
      exists (S i), key, child. repeat split; assumption. }
    destruct x; cbn [tree writes]; try (intros Hin; exact (Hskip Hin _)).
    cbv zeta. destruct (raised (walk scope (Dict d))) eqn:Hr; cbn [tree writes].
    + intros Hin. exists 0%nat, k, d. repeat split; [exact Hin].
    + intros Hin. apply elem_of_app in Hin as [Hin|Hin].
      * exists 0%nat, k, d. repeat split. exact Hin.
      * exact (Hskip Hin _).
Qed.

Lemma walk_writes_aux (root : value) :
  forall scope key node,
    (key, node) ∈ writes (walk scope root) ->
    exists p d i s new_scope,
      reached root p
      /\ subnode root p = Some (Dict d)
      /\ str_ref d = None
      /\ declared_id d = Some i
      /\ scope_at scope root p = Some s
      /\ fixed_urljoin s i = Ok new_scope
      /\ normalize new_scope = Ok key
      /\ subnode (tree (walk scope root)) p = Some node.
Proof.
  induction root as [| b | z | m e | s | l _ | d0 IH] using value_nested_ind;
    intros scope key node; try (cbn; intros Hin; inversion Hin; fail).
  rewrite walk_Dict.
  assert (Hbelow :
    forall inner,
      scope_within scope d0 = Some inner ->
      str_ref d0 = None ->
      (key, node) ∈ writes (walk_items inner d0) ->
      exists p d i s new_scope,
        reached (Dict d0) p
        /\ subnode (Dict d0) p = Some (Dict d)
        /\ str_ref d = None
        /\ declared_id d = Some i
        /\ scope_at scope (Dict d0) p = Some s
        /\ fixed_urljoin s i = Ok new_scope
        /\ normalize new_scope = Ok key
        /\ subnode (Dict (tree (walk_items inner d0))) p = Some node).
  { intros inner Hinner Hnoref Hin.
    destruct (walk_items_write inner d0 _ Hin) as (j & k & child & Hj & Hw & Ht).
    rewrite Forall_lookup in IH. specialize (IH j (k, Dict child) Hj inner key node Hw).
    destruct IH as (p & d & i & s & ns & Hr & Hs & Hnr & Hid & Hsc & Hjoin & Hnorm & Hsub).
    exists (j :: p), d, i, s, ns.
    split; [cbn [reached]; split; [exact Hnoref|]; exists k, child; split; assumption|].
    split; [cbn [subnode]; rewrite Hj; exact Hs|].
    split; [assumption|]. split; [assumption|].
    split; [cbn [scope_at]; rewrite Hj, Hinner; exact Hsc|].
    split; [assumption|]. split; [assumption|].
    cbn [subnode]. rewrite Ht. exact Hsub. }
  destruct (str_ref d0) as [ref|] eqn:Href.
  - destruct (fixed_urljoin scope ref); cbn; intros Hin; inversion Hin.
  - unfold scope_within in Hbelow.
    destruct (declared_id d0) as [i0|] eqn:Hid0.
    + destruct (fixed_urljoin scope i0) as [new_scope|e] eqn:Hjoin;
        cbn [rbind]; [|cbn; intros Hin; inversion Hin].
      destruct (normalize new_scope) as [key0|e] eqn:Hnorm;
        cbn [rbind]; [|cbn; intros Hin; inversion Hin].
      cbv zeta. cbn [writes tree]. intros Hin.
      apply elem_of_cons in Hin as [[= -> ->]|Hin].
      * exists [], d0, i0, scope, new_scope. cbn [reached subnode scope_at].
        repeat split; assumption.
      * exact (Hbelow (Str new_scope) eq_refl eq_refl Hin).
    + cbv zeta. cbn [writes tree]. intros Hin.
      exact (Hbelow scope eq_refl eq_refl Hin).
Qed.

(** X7.  Every write of a walk, completed or not, is a node of the
    tree as the walk left it: a map the walk reached, without a text
    [$ref], that declares a text identifier, written under the
    normalized join of that identifier against the scope current at its
    place. *)
Theorem walk_writes_are_nodes (scope root : value) (key : string) (node : value) :
  (key, node) ∈ writes (walk scope root) ->
  exists p d i s new_scope,
    reached root p
    /\ subnode root p = Some (Dict d)
    /\ str_ref d = None
    /\ declared_id d = Some i
    /\ scope_at scope root p = Some s
    /\ fixed_urljoin s i = Ok new_scope
    /\ normalize new_scope = Ok key
    /\ subnode (tree (walk scope root)) p = Some node.
Proof. apply walk_writes_aux. Qed.

Lemma apply_writes_origin (ws : list (string * value)) (st : gmap string value)
    (key : string) (node : value) :
  apply_writes ws st !! key = Some node ->
  (key, node) ∈ ws \/ st !! key = Some node.
Proof.
  rewrite apply_writes_lookup.
  destruct (last (filter _ ws)) as [[k n]|] eqn:Hl; [|right; assumption].
  intros [= <-]. left.
  apply last_Some_elem_of in Hl. apply list_elem_of_filter in Hl as [Hk Hin].
  cbn in Hk. subst k. exact Hin.
Qed.

(** X8.  [__init__], whether it answers with a resolver or raises,
    touches no store object but its own; and when it answers, what its
    store holds under a key is either what the store held under that
    key before or a node of the resolver's schema. *)
Theorem init_store_entries (b s : value) (st : option loc) (c : bool)
    (hs : handler_map) (h : heap) :
  let l := default default_store st in
  (forall l', l' <> l -> (__init__ b s st c hs h).2 !!! l' = h !!! l')
  /\ (forall r h',
        __init__ b s st c hs h = (Ok r, h') ->
        store r = l
        /\ forall key node,
             store_of r h' !! key = Some node ->
             (h !!! l) !! key = Some node
             \/ exists p, subnode (schema r) p = Some node).
Proof.
  cbv zeta. split.
  - intros l' Hne. unfold __init__.
    destruct (raised (walk b s)); cbn [snd]; apply lookup_total_insert_ne; congruence.
  - intros r h'. unfold __init__.
    destruct (raised (walk b s)); [discriminate|].
    intros [= <- <-]. split; [reflexivity|].
    intros key node. unfold store_of. cbn [store schema].
    rewrite lookup_total_insert_eq. intros Hget.
    apply apply_writes_origin in Hget as [Hin|Hold]; [right|left; exact Hold].
    destruct (walk_writes_aux s b key node Hin)
      as (p & d & i & sc & ns & _ & _ & _ & _ & _ & _ & _ & Hsub).
    exists p. exact Hsub.
Qed.

End walking_more.

(** ** [get_scope_name] *)

Lemma all_chars_app (p : ascii -> bool) (s t : string) :
  PyStr.all_chars p (s +:+ t) = PyStr.all_chars p s && PyStr.all_chars p t.
Proof.
  induction s as [|c s IH]; [reflexivity|].
  change (PyStr.all_chars p (String c (s +:+ t))
          = PyStr.all_chars p (String c s) && PyStr.all_chars p t).
  cbn [PyStr.all_chars]. rewrite IH. apply andb_assoc.
Qed.

Lemma pretty_N_char_digit (x : N) : PyStr.is_digit (pretty_N_char x) = true.
Proof. unfold pretty_N_char. repeat case_match; reflexivity. Qed.

Lemma pretty_N_go_digits (x : N) :
  forall s, PyStr.all_chars PyStr.is_digit s = true ->
            PyStr.all_chars PyStr.is_digit (pretty_N_go x s) = true.
Proof.
  induction (N.lt_wf_0 x) as [x _ IH]; intros s Hs.
  destruct (decide (x = 0)%N) as [->|Hx]; [rewrite pretty_N_go_0; exact Hs|].
  rewrite pretty_N_go_step by lia. apply IH.
  - apply N.div_lt; lia.
  - cbn [PyStr.all_chars]. rewrite pretty_N_char_digit. exact Hs.
Qed.

Lemma pretty_nonneg_digits (j : nat) :
  PyStr.all_chars PyStr.is_digit (pretty (Z.of_nat j)) = true.
Proof.
  destruct (Z.of_nat j) as [|p|p] eqn:Hj; [reflexivity| |lia].
  unfold pretty, pretty_Z, pretty, pretty_positive, pretty, pretty_N.
  destruct (decide _); [reflexivity|]. apply pretty_N_go_digits. reflexivity.
Qed.

Lemma name_char_ident (c : ascii) : ident_char (name_char c) = true.
Proof. destruct c as [[] [] [] [] [] [] [] []]; reflexivity. Qed.

Lemma map_name_char_ident (s : string) :
  PyStr.all_chars ident_char (map_chars name_char s) = true.
Proof.
  induction s as [|c s IH]; [reflexivity|].
  cbn [map_chars PyStr.all_chars]. rewrite name_char_ident. exact IH.
Qed.

Lemma rstrip_all_chars (p : ascii -> bool) (chars s : string) :
  PyStr.all_chars p s = true -> PyStr.all_chars p (PyStr.rstrip chars s) = true.
Proof.
  induction s as [|c s IH]; [reflexivity|].
  cbn [PyStr.all_chars PyStr.rstrip]. intros Hall.
  apply andb_true_iff in Hall as [Hc Hs]. specialize (IH Hs).
  destruct (PyStr.rstrip chars s) as [|c' s'].
  - destruct (PyStr.mem c chars); [reflexivity|]. cbn. rewrite Hc. reflexivity.
  - cbn [PyStr.all_chars] in IH |- *. rewrite Hc. exact IH.
Qed.

Lemma rstrip_cons_keep (chars : string) (c : ascii) (s : string) :
  PyStr.mem c chars = false ->
  PyStr.rstrip chars (String c s) = String c (PyStr.rstrip chars s).
Proof.
  intros Hc. cbn [PyStr.rstrip]. rewrite Hc.
  destruct (PyStr.rstrip chars s); reflexivity.
Qed.

Lemma replace_single_other (a c : ascii) (new t : string) :
  Ascii.eqb a c = false ->
  PyStr.replace (String a "") new (String c t)
  = String c (PyStr.replace (String a "") new t).
Proof.
  intros Hc. unfold PyStr.replace. cbn [PyStr.replace_go PyStr.startswith].
  rewrite Hc. reflexivity.
Qed.

Section names_more.
Context `{urlparse.Lib}.

(** The base name begins with [validate]. *)
Lemma scope_base_name_prefix (scope : string) :
  exists rest, scope_base_name scope = "validate" +:+ rest.
Proof.
  unfold scope_base_name. rewrite lower_re_sub_name.
  change ("validate_" +:+ urlparse.unquote scope)
    with (String "v" (String "a" (String "l" (String "i" (String "d" (String "a"
           (String "t" (String "e" (String "_" (urlparse.unquote scope)))))))))).
  do 9 (rewrite (replace_pair_other "~" "1" "_") by reflexivity).
  do 9 (rewrite (replace_pair_other "~" "0" "_") by reflexivity).
  do 9 (rewrite replace_single_other by reflexivity).
  cbn [map_chars].
  do 8 (rewrite rstrip_cons_keep by reflexivity).
  eexists. reflexivity.
Qed.

Lemma scope_base_name_ident (scope : string) :
  PyStr.all_chars ident_char (scope_base_name scope) = true.
Proof.
  unfold scope_base_name. rewrite lower_re_sub_name.
  apply rstrip_all_chars, map_name_char_ident.
Qed.

Lemma candidate_ident (name : string) (k : nat) :
  PyStr.all_chars ident_char name = true ->
  PyStr.all_chars ident_char (candidate name k) = true.
Proof.
  intros Hname. destruct k as [|j]; [exact Hname|].
  cbn [candidate]. unfold suffixed. rewrite !all_chars_app, Hname.
  cbn [andb]. change (PyStr.all_chars ident_char "_") with true. cbn [andb].
  pose proof (pretty_nonneg_digits j) as Hd.
  induction (pretty (Z.of_nat j)) as [|c s IH]; [reflexivity|].
  cbn [PyStr.all_chars] in Hd |- *. apply andb_true_iff in Hd as [Hc Hs].
  rewrite (IH Hs), andb_true_r. unfold ident_char. rewrite Hc.
  apply orb_true_iff. left. apply orb_true_r.
Qed.

(** X9.  The name given to a scope that had none is a Python
    identifier: it begins with [validate] and is made of lower-case
    letters, digits and underscores only, whatever the scope is. *)
Theorem get_scope_name_identifier (self : RefResolver) (h : heap) (scope name : string) :
  resolution_scope self = Str scope ->
  unique_name_registry self !! scope = None ->
  (get_scope_name self h).1.1 = Ok name ->
  PyStr.startswith "validate" name = true
  /\ PyStr.all_chars ident_char name = true.
Proof.
  intros Hscope Hnew Hname.
  destruct (get_scope_name_new self h scope Hscope Hnew) as (k & Hrun & _).
  cbv zeta in Hrun. rewrite Hrun in Hname. cbn [fst] in Hname. injection Hname as <-.
  split.
  - destruct (scope_base_name_prefix scope) as [rest Hrest].
    destruct k as [|j]; cbn [candidate]; [rewrite Hrest; reflexivity|].
    unfold suffixed. rewrite Hrest. reflexivity.
  - apply candidate_ident, scope_base_name_ident.
Qed.

(** X10.  [get_scope_name] changes nothing but the registry and the
    set of taken names, and never the heap; a second call in the same
    state answers as the first and changes nothing at all. *)
Theorem get_scope_name_settles (self : RefResolver) (h : heap) :
  let '(r, self', h') := get_scope_name self h in
  h' = h
  /\ set_unique_names (unique_name_registry self) (unique_names_taken self) self' = self
  /\ unique_names_taken self ⊆ unique_names_taken self'
  /\ get_scope_name self' h' = (r, self', h').
Proof.
  destruct (resolution_scope self) as [| | | | scope | |] eqn:Hscope;
    try (unfold get_scope_name at 1; rewrite Hscope;
         split; [reflexivity|]; split; [destruct self; reflexivity|];
         split; [reflexivity|]; unfold get_scope_name; rewrite Hscope; reflexivity).
  destruct (unique_name_registry self !! scope) as [name|] eqn:Hreg.
  - rewrite (get_scope_name_known self h scope name Hscope Hreg).
    split; [reflexivity|]. split; [destruct self; reflexivity|].
    split; [reflexivity|]. apply (get_scope_name_known self h scope name); assumption.
  - destruct (get_scope_name_new self h scope Hscope Hreg) as (k & Hrun & _).
    cbv zeta in Hrun. rewrite Hrun.
    split; [reflexivity|]. split; [destruct self; reflexivity|].
    split; [cbn; set_solver|].
    apply (get_scope_name_known _ h scope); [exact Hscope|]. cbn. apply lookup_insert_eq.
Qed.

End names_more.

(** ** [in_scope], [resolving] and [resolve_remote] *)
Section resolution_more.
Context `{urlparse.Lib} `{Network}.

(** X11.  [in_scope] leaves [resolution_scope] as it found it, however
    the enclosed block ends and whatever it assigns; when the join of
    the scope fails the block is not run and nothing changes; and
    inside a nested [in_scope] the block runs under the inner scope
    joined against the outer one, the scope of the caller being back in
    place afterwards. *)
Theorem in_scope_scoped {A} (block : M A) (self : RefResolver) (h : heap) :
  (forall scope,
      resolution_scope (in_scope scope block self h).1.2 = resolution_scope self)
  /\ (forall scope e,
        fixed_urljoin (resolution_scope self) scope = Raise e ->
        in_scope scope block self h = (Raise e, self, h))
  /\ (forall outer inner so si,
        fixed_urljoin (resolution_scope self) outer = Ok so ->
        fixed_urljoin (Str so) inner = Ok si ->
        in_scope outer (in_scope inner block) self h =
        match block (set_resolution_scope (Str si) self) h with
        | (r, self', h') =>
            (r, set_resolution_scope (resolution_scope self) self', h')
        end).
Proof.
  split; [|split].
  - intros scope. unfold in_scope. destruct (fixed_urljoin _ scope); [|reflexivity].
    unfold try_finally. destruct (block _ h) as [[r self'] h']. reflexivity.
  - intros scope e Hjoin. unfold in_scope. rewrite Hjoin. reflexivity.
  - intros outer inner so si Hso Hsi. unfold in_scope at 1. rewrite Hso.
    unfold try_finally, in_scope. cbn [resolution_scope set_resolution_scope].
    rewrite Hsi. unfold try_finally.
    change (set_resolution_scope (Str si) (set_resolution_scope (Str so) self))
      with (set_resolution_scope (Str si) self).
    destruct (block _ h) as [[r self'] h']. reflexivity.
Qed.

(** X12.  [resolving], up to the point where it has its document,
    leaves the resolver's fields alone, touches no store but the
    resolver's own, never replaces or removes an entry of that store,
    and leaves the heap as it was when it raises. *)
Theorem resolving_document_keeps_store (ref : string) (self : RefResolver) (h : heap) :
  let '(r, self', h') := resolving_document ref self h in
  self' = self
  /\ (forall l, l <> store self -> h' !!! l = h !!! l)
  /\ (forall key doc,
        store_of self h !! key = Some doc -> store_of self h' !! key = Some doc)
  /\ (forall e, r = Raise e -> h' = h).
Proof.
  unfold resolving_document.
  destruct (let* new_uri := _ in _) as [[[uri fragment] nu]|e]; [|auto].
  destruct (store_of self h !! nu) eqn:Hnu; [repeat split; auto; discriminate|].
  destruct (_ || _); [repeat split; auto; discriminate|].
  destruct (resolve_remote uri (handlers self)); [|auto].
  destruct (cache self); [|repeat split; auto; discriminate].
  destruct (urlparse.urlsplit nu); [|auto].
  destruct (negb _); [|repeat split; auto; discriminate].
  split; [reflexivity|]. split; [|split; [|discriminate]].
  - intros l Hl. unfold store_write. apply lookup_total_insert_ne. congruence.
  - intros key doc Hkey. unfold store_of, store_write in *.
    rewrite lookup_total_insert_eq. rewrite lookup_insert_ne; [exact Hkey|].
    intros <-. congruence.
Qed.

(** X13.  When a call wrote the document it fetched to the store, the
    same reference resolved again in the same scope answers with that
    document from the store and leaves the heap alone, whatever the
    handlers and the cache flag then are. *)
Theorem resolving_document_again (ref : string) (self : RefResolver) (h h' : heap)
    (uri fragment : string) (doc : value) (hs : handler_map) (c : bool) :
  resolving_document ref self h = (Ok (uri, fragment, doc), self, h') ->
  h' <> h ->
  resolving_document ref (set_handlers_cache hs c self) h'
  = (Ok (uri, fragment, doc), set_handlers_cache hs c self, h').
Proof.
  unfold resolving_document. cbn [resolution_scope set_handlers_cache].
  destruct (let* new_uri := _ in _) as [[[uri0 fragment0] nu]|e]; [|discriminate].
  destruct (store_of self h !! nu) eqn:Hnu; [intros [= <- <- <- <-]; contradiction|].
  destruct (_ || _); [intros [= <- <- <- <-]; contradiction|].
  destruct (resolve_remote uri0 (handlers self)) as [doc0|e]; [|discriminate].
  destruct (cache self); [|intros [= <- <- <- <-]; contradiction].
  destruct (urlparse.urlsplit nu); [|discriminate].
  destruct (negb _); [|intros [= <- <- <- <-]; contradiction].
  intros [= <- <- <- <-] _.
  assert (Hhit : store_of (set_handlers_cache hs c self)
                   (store_write (store self) nu doc0 h) !! nu = Some doc0).
  { unfold store_of, store_write. cbn [store set_handlers_cache].
    rewrite lookup_total_insert_eq. apply lookup_insert_eq. }
  rewrite Hhit. reflexivity.
Qed.


End resolution_more.

(** ** Instances of the further properties *)

(** X1 at the second element of [definitions]. *)
Lemma resolve_path_answers_node_witness :
  exists p,
    length p = length (@pointer_tokens cpython "/definitions/1")
    /\ subnode (Dict [("definitions", List [Str "zero"; Str "one"])]) p = Some (Str "one").
Proof.
  exact (@resolve_path_answers_node cpython
           (Dict [("definitions", List [Str "zero"; Str "one"])]) "/definitions/1"
           (Str "one") eq_refl).
Defined.

(** X2 at the token [-1] on two elements. *)
Lemma resolve_parts_index_bounds_witness :
  exists item,
    [Int 1; Int 2] !! Z.to_nat (2 + -1) = Some item
    /\ @resolve_parts (List [Int 1; Int 2]) ["-1"; "x"] = resolve_parts item ["x"].
Proof.
  destruct (resolve_parts_index_bounds [Int 1; Int 2] "-1" (-1) ["x"] eq_refl)
    as (_ & Hneg & _).
  apply Hneg. cbn. lia.
Defined.

(** X4 at three slashes, on a map that has the empty key. *)
Lemma resolve_path_only_slashes_witness :
  @resolve_path cpython (Dict [("", Int 1)]) "///" = Ok (Dict [("", Int 1)]).
Proof.
  exact (@resolve_path_only_slashes cpython (Dict [("", Int 1)]) "///" eq_refl).
Defined.

(** X6 at a node that has a [$ref], an [$id] and a definition below. *)
Lemma walk_ref_node_is_leaf_witness :
  exists d',
    @walk cpython (Str "http://example.com/root.json")
      (Dict [("$id", Str "other.json"); ("$ref", Str "a.json");
             ("definitions", Dict [("b", Dict [("$ref", Str "c.json")])])])
    = mkWalked (Dict d') [] None
    /\ dict_get "$ref" d' = Some (Str "http://example.com/a.json").
Proof.
  destruct (@walk_ref_node_is_leaf cpython (Str "http://example.com/root.json")
              [("$id", Str "other.json"); ("$ref", Str "a.json");
               ("definitions", Dict [("b", Dict [("$ref", Str "c.json")])])]
              "a.json" "http://example.com/a.json" eq_refl eq_refl)
    as (d' & Hwalk & Href & _).
  exists d'. split; assumption.
Defined.

(** X7 at the write of [nested_schema] for [sub/b.json]. *)
Lemma walk_writes_are_nodes_witness :
  exists p,
    subnode (tree (@walk cpython (Str "") nested_schema)) p
    = Some (Dict [("id", Str "sub/b.json");
                  ("items", Dict [("$ref", Str "http://example.com/sub/c.json")])]).
Proof.
  assert (Hin : ("http://example.com/sub/b.json",
                 Dict [("id", Str "sub/b.json");
                       ("items", Dict [("$ref", Str "http://example.com/sub/c.json")])])
                ∈ writes (@walk cpython (Str "") nested_schema)).
  { vm_compute. apply list_elem_of_further, list_elem_of_here. }
  destruct (@walk_writes_are_nodes cpython (Str "") nested_schema _ _ Hin)
    as (p & d & i & s & ns & _ & _ & _ & _ & _ & _ & _ & Hsub).
  exists p. exact Hsub.
Defined.

(** X8 at the construction of a resolver for [nested_schema] on the
    empty heap. *)
Lemma init_store_entries_witness :
  let r := mkResolver (Str "") (Str "") (tree (@walk cpython (Str "") nested_schema))
                      default_store true mem_handlers ∅ ∅ in
  let node := Dict [("id", Str "sub/b.json");
                    ("items", Dict [("$ref", Str "http://example.com/sub/c.json")])] in
  (∅ : gmap string value) !! "http://example.com/sub/b.json" = Some node
  \/ exists p, subnode (schema r) p = Some node.
Proof.
  intros r node.
  pose (h' := (<[default_store :=
                  apply_writes (writes (@walk cpython (Str "") nested_schema)) ∅]> ∅) : heap).
  assert (Hinit : @__init__ cpython (Str "") nested_schema None true mem_handlers ∅
                  = (Ok r, h')) by reflexivity.
  assert (Hget : store_of r h' !! "http://example.com/sub/b.json" = Some node)
    by (vm_compute; reflexivity).
  destruct (@init_store_entries cpython (Str "") nested_schema None true mem_handlers ∅)
    as [_ Hentries].
  destruct (Hentries r h' Hinit) as [_ Hnodes].
  exact (Hnodes _ _ Hget).
Defined.

(** X9 at the scope [http://Example.com/A b]. *)
Lemma get_scope_name_identifier_witness :
  PyStr.startswith "validate" "validate_http___example_com_a_b" = true
  /\ PyStr.all_chars ident_char "validate_http___example_com_a_b" = true.
Proof.
  exact (@get_scope_name_identifier cpython
           (mkResolver (Str "") (Str "http://Example.com/A%20b") (Bool true) default_store
                       true (fun _ => None) ∅ ∅)
           ∅ "http://Example.com/A%20b" "validate_http___example_com_a_b"
           eq_refl (lookup_empty _) eq_refl).
Defined.

(** X11 at two nested scopes below [http://example.com/root.json]. *)
Lemma in_scope_scoped_witness :
  @in_scope cpython (value) "a/b.json"
    (@in_scope cpython value "c.json" (fun self h => (Ok (resolution_scope self), self, h)))
    (root_resolver true) ∅
  = (Ok (Str "http://example.com/a/c.json"), root_resolver true, ∅).
Proof.
  destruct (@in_scope_scoped cpython value
              (fun self h => (Ok (resolution_scope self), self, h))
              (root_resolver true) ∅) as (_ & _ & Hnested).
  rewrite (Hnested "a/b.json" "c.json" "http://example.com/a/b.json"
             "http://example.com/a/c.json" eq_refl eq_refl).
  reflexivity.
Defined.

(** X13 at the document of scheme [mem] fetched by [root_resolver],
    resolved again with no handler at all. *)
Lemma resolving_document_again_witness :
  let doc := Dict [("title", Str "mem://docs/a.json"); ("items", List [Int 7])] in
  let h' := store_write default_store "mem://docs/a.json" doc ∅ in
  @resolving_document cpython offline "mem://docs/a.json#/title"
    (set_handlers_cache (fun _ => None) false (root_resolver true)) h'
  = (Ok ("mem://docs/a.json", "/title", doc),
     set_handlers_cache (fun _ => None) false (root_resolver true), h').
Proof.
  intros doc h'.
  assert (Hfirst : @resolving_document cpython offline "mem://docs/a.json#/title"
                     (root_resolver true) ∅
                   = (Ok ("mem://docs/a.json", "/title", doc), root_resolver true, h'))
    by (vm_compute; reflexivity).
  apply (@resolving_document_again cpython offline "mem://docs/a.json#/title"
           (root_resolver true) ∅ h' "mem://docs/a.json" "/title" doc
           (fun _ => None) false Hfirst).
  intros Heq. apply (f_equal (fun m : heap => m !! default_store)) in Heq.
  unfold h', store_write in Heq. rewrite lookup_insert_eq, lookup_empty in Heq.
  discriminate Heq.
Defined.


(** X15 at the reference [#/type] on [root_resolver]: the block sees
    the root document as [schema] and answers with it. *)
Lemma resolving_runs_block_witness :
  @resolving cpython offline value "#/type" (fun _ self h => (Ok (schema self), self, h))
    (root_resolver true) ∅
  = (Ok (Dict [("type", Str "object")]), root_resolver true, ∅).
Proof.
  assert (Hdoc : @resolving_document cpython offline "#/type" (root_resolver true) ∅
                 = (Ok ("http://example.com/root.json", "/type",
                        Dict [("type", Str "object")]),
                    root_resolver true, ∅))
    by (vm_compute; reflexivity).
  rewrite (@resolving_runs_block cpython offline value "#/type"
             (fun _ self h => (Ok (schema self), self, h)) (root_resolver true) ∅ ∅
             "http://example.com/root.json" "/type" "http://example.com/root.json"
             (Dict [("type", Str "object")]) (Str "object") Hdoc eq_refl eq_refl).
  reflexivity.
Defined.
